(** * freedict-generator-lite: TEI normaliser, entry extractor and headword index

    A shallow embedding of the core of [freedict-generator-lite.py]:
    [remove_namespace], [handle_includes], [handle_super_entries],
    [preprocess], [collect_sense], [collect] and the merge loop of the
    main program, together with the properties of the specification that
    concern them. *)

From Stdlib Require Import Ascii.
From stdpp Require Import base option list gmap strings pretty sorting.

(** ** Outcomes of a Python call *)

(** The exceptions the modelled code can raise. *)
Inductive exn : Type :=
  | IndexError      (* [list.pop] on an empty list *)
  | ValueError      (* [Element.remove] of an element that is not a child *)
  | TypeError       (* [str + None] *)
  | ParseFailure    (* [ElementTree.parse] raises: the file cannot be opened
                       ([OSError]) or is not well-formed ([ParseError]) *)
  | RecursionError. (* the interpreter's recursion limit is reached *)

Inductive result (A : Type) : Type :=
  | Ok (a : A)
  | Raise (e : exn).
Arguments Ok {A} a.
Arguments Raise {A} e.

#[global] Instance result_ret : MRet result := fun A a => Ok a.
#[global] Instance result_bind : MBind result := fun A B k r =>
  match r with
  | Ok a => k a
  | Raise e => Raise e
  end.

(** A [for] loop whose body updates a state and may raise. *)
Definition for_each {A S} (body : A -> S -> result S) : list A -> S -> result S :=
  fix loop (l : list A) (s : S) : result S :=
    match l with
    | [] => Ok s
    | x :: l' => s' ← body x s; loop l' s'
    end.

(** ** Data model *)

(** [xml.etree.ElementTree.Element].  [oid] is the identity of the Python
    object (what [is] compares, and what [Element.remove] looks for); the
    other fields are the attributes of the same names, [children] the
    element's child list.  [text] is [None] for an element without
    character data before its first child; the parser gives no empty
    string.  A parsed document is a tree, no element has two parents: the
    code's updates in place are modelled by functions that return the
    updated element. *)
#[local] Unset Elimination Schemes.
Inductive Element : Type := mkElement {
  oid : nat;
  tag : string;
  text : option string;
  tail : option string;
  attrib : gmap string string;
  children : list Element
}.
#[local] Set Elimination Schemes.

(** [class DictSense]: both fields start as [None]. *)
Record DictSense : Type := mkDictSense {
  quotes : option (list (option string));
  defs : option (list (option string))
}.

(** [class DictEntry]: all fields start as [None].  [orth], [pron] and
    [pos] only ever receive a text that [is not None]; [gen] receives
    [element.text] as it is. *)
Record DictEntry : Type := mkDictEntry {
  orth : option (list string);
  pron : option (list string);
  gen : option (list (option string));
  pos : option (list string);
  senses : option (list DictSense)
}.

Definition DictSense_new : DictSense := mkDictSense None None.
Definition DictEntry_new : DictEntry := mkDictEntry None None None None None.

#[global] Instance DictSense_eq_dec : EqDecision DictSense.
Proof. solve_decision. Defined.
#[global] Instance DictEntry_eq_dec : EqDecision DictEntry.
Proof. solve_decision. Defined.

(** ** Python list and string primitives *)

(** [if field is None: field = [x]  else: field.append(x)] *)
Definition append_field {A} (field : option (list A)) (x : A) : option (list A) :=
  match field with
  | None => Some [x]
  | Some l => Some (l ++ [x])
  end.

(** [prefix.pop()]: drops the last item, [IndexError] on an empty list. *)
Definition list_pop {A} (l : list A) : result (list A) :=
  match l with
  | [] => Raise IndexError
  | _ => Ok (removelast l)
  end.

(** [".".join(prefix)] *)
Definition join (prefix : list string) : string := String.concat "." prefix.

(** [x in l] for a list of strings. *)
Definition str_in (x : string) (l : list string) : bool :=
  existsb (String.eqb x) l.

(** ** Sense extractor and entry extractor *)

Definition set_quotes (sense : DictSense) v := mkDictSense v (defs sense).
Definition set_defs (sense : DictSense) v := mkDictSense (quotes sense) v.

Fixpoint collect_sense (element : Element) (sense : DictSense) (prefix : list string)
  : result (DictSense * list string) :=
  (* push *)
  let prefix := prefix ++ [tag element] in
  let path := join prefix in
  let sense :=
    if String.eqb path "entry.sense.cit.quote" then
      set_quotes sense (append_field (quotes sense) (text element))
    else if String.eqb path "entry.sense.sense.def" then
      set_defs sense (append_field (defs sense) (text element))
    else sense in
  (* process leaf *)
  '(sense, prefix) ← for_each (fun child '(sense, prefix) =>
                                  collect_sense child sense prefix)
                               (children element) (sense, prefix);
  (* pop *)
  prefix ← list_pop prefix;
  Ok (sense, prefix).

Definition set_orth (output : DictEntry) v :=
  mkDictEntry v (pron output) (gen output) (pos output) (senses output).
Definition set_pron (output : DictEntry) v :=
  mkDictEntry (orth output) v (gen output) (pos output) (senses output).
Definition set_gen (output : DictEntry) v :=
  mkDictEntry (orth output) (pron output) v (pos output) (senses output).
Definition set_pos (output : DictEntry) v :=
  mkDictEntry (orth output) (pron output) (gen output) v (senses output).
Definition set_senses (output : DictEntry) v :=
  mkDictEntry (orth output) (pron output) (gen output) (pos output) v.

Fixpoint collect (element : Element) (output : DictEntry) (prefix : list string)
  : result (DictEntry * list string) :=
  (* push *)
  let prefix := prefix ++ [tag element] in
  let path := join prefix in
  (* process leaf, pop *)
  let walk (output : DictEntry) :=
    '(output, prefix) ← for_each (fun child '(output, prefix) =>
                                     collect child output prefix)
                                  (children element) (output, prefix);
    prefix ← list_pop prefix;
    Ok (output, prefix) in
  if String.eqb path "entry.form.orth" then
    match text element with
    | Some t => walk (set_orth output (append_field (orth output) t))
    | None => walk output (* <form><hi> data dropped *)
    end
  else if String.eqb path "entry.form.pron" then
    match text element with
    | Some t => walk (set_pron output (append_field (pron output) t))
    | None => walk output
    end
  else if String.eqb path "entry.gramGrp.gen" then
    walk (set_gen output (append_field (gen output) (text element)))
  else if String.eqb path "entry.gramGrp.pos" then
    match text element with
    | Some t =>
        match pos output with
        | None => walk (set_pos output (Some [t]))
        | Some l =>
            if str_in t l then walk output
            else walk (set_pos output (Some (l ++ [t])))
        end
    | None => walk output
    end
  else if String.eqb path "entry.sense" then
    prefix ← list_pop prefix;
    '(sense, prefix) ← collect_sense element DictSense_new prefix;
    Ok (set_senses output (append_field (senses output) sense), prefix)
  else walk output.

(** ** TEI normaliser *)

(** The normaliser writes to [sys.stderr] and may raise: a computation
    takes the lines written so far and gives its outcome with the lines
    written by then. *)
Definition M (A : Type) : Type := list string -> result A * list string.

#[global] Instance M_ret : MRet M := fun A a err => (Ok a, err).
#[global] Instance M_bind : MBind M := fun A B k m err =>
  match m err with
  | (Ok a, err') => k a err'
  | (Raise e, err') => (Raise e, err')
  end.

(** [sys.stderr.write(s)] *)
Definition stderr_write (s : string) : M unit := fun err => (Ok tt, err ++ [s]).

(** An outcome that writes nothing. *)
Definition lift {A} (r : result A) : M A := fun err => (r, err).

(** A [for] loop that rebuilds every item of a list in turn. *)
Definition for_all {A B} (body : A -> M B) : list A -> M (list B) :=
  fix loop (l : list A) : M (list B) :=
    match l with
    | [] => mret []
    | x :: l' => y ← body x; ys ← loop l'; mret (y :: ys)
    end.

Definition newline : string := String (Ascii.ascii_of_nat 10) "".

Definition TEI_NS : string := "{http://www.tei-c.org/ns/1.0}".
Definition XINCLUDE : string := "{http://www.w3.org/2001/XInclude}include".
Definition SUPER_ENTRY : string := "{http://www.tei-c.org/ns/1.0}superEntry".

(** [s[n:]] *)
Fixpoint string_from (n : nat) (s : string) : string :=
  match n, s with
  | 0, _ => s
  | S n', String _ s' => string_from n' s'
  | S _, EmptyString => EmptyString
  end.

Definition set_tag (element : Element) (t : string) : Element :=
  mkElement (oid element) t (text element) (tail element) (attrib element)
            (children element).
Definition set_children (element : Element) (cs : list Element) : Element :=
  mkElement (oid element) (tag element) (text element) (tail element)
            (attrib element) cs.

(** [element.clear()]: children and attributes removed, text and tail
    reset to [None]; the tag stays. *)
Definition Element_clear (element : Element) : Element :=
  mkElement (oid element) (tag element) None None ∅ [].

(** [parent.append(entry)] and [parent.extend(entries)] *)
Definition Element_append (parent entry : Element) : Element :=
  set_children parent (children parent ++ [entry]).
Definition Element_extend (parent : Element) (entries : list Element) : Element :=
  set_children parent (children parent ++ entries).

(** The child list without its first item that is the object [sub]. *)
Fixpoint remove_first (sub : Element) (l : list Element) : option (list Element) :=
  match l with
  | [] => None
  | c :: l' =>
      if Nat.eqb (oid c) (oid sub) then Some l'
      else l'' ← remove_first sub l'; Some (c :: l'')
  end.

(** [parent.remove(sub)]: identity comparison, [ValueError] when [sub] is
    not a child of [parent]. *)
Definition Element_remove (parent sub : Element) : result Element :=
  match remove_first sub (children parent) with
  | Some l => Ok (set_children parent l)
  | None => Raise ValueError
  end.

(** [element.iter()]: the element and all its descendants, in document
    order. *)
Fixpoint iter (element : Element) : list Element :=
  element :: flat_map iter (children element).

(** [element.findall(".//" + t)]: the descendants tagged [t], in document
    order; [element] itself is not among them. *)
Definition findall (t : string) (element : Element) : list Element :=
  filter (fun e => tag e = t) (flat_map iter (children element)).

Definition remove_namespace (element : Element) : M Element :=
  if String.prefix TEI_NS (tag element) then
    mret (set_tag element (string_from (String.length TEI_NS) (tag element)))
  else
    _ ← stderr_write ("ERROR: " +:+ tag element +:+ newline);
    mret element.

Definition handle_super_entries (parent : Element) : result Element :=
  for_each (fun super parent =>
              Element_remove (foldl Element_append parent (children super)) super)
           (findall SUPER_ENTRY parent) parent.

Section Normaliser.

(** [ElementTree.parse(filename).getroot()]: the root of the parsed
    file, [None] when the file cannot be read or parsed. *)
Variable parse : string -> option Element.

(** The body of the loop of [handle_includes]. *)
Definition include_step (path : string) (subtree : Element)
    (entries : list Element) : result (list Element) :=
  if String.eqb (tag subtree) XINCLUDE then
    let href := attrib subtree !! "href" in
    match href with
    | None => Raise TypeError
    | Some href =>
        match parse (path +:+ "/" +:+ href) with
        | None => Raise ParseFailure
        | Some root =>
            Ok (foldl (fun entries entry => entries ++ [entry])
                      entries (children root))
        end
    end
  else Ok entries.

Definition handle_includes (parent : Element) (path : string) : result Element :=
  entries ← for_each (include_step path) (children parent) [];
  Ok (Element_extend (Element_clear parent) entries).

(** [depth] bounds the nesting of calls, as the interpreter's recursion
    limit does. *)
Fixpoint preprocess (depth : nat) (element : Element) (path : string) : M Element :=
  match depth with
  | 0 => lift (Raise RecursionError)
  | S depth' =>
      (* remove namespaces *)
      element ← remove_namespace element;
      (* handle includes (for en-pl) *)
      element ←
        (if String.eqb (tag element) "body" then
           if 0 <? length (findall XINCLUDE element) then
             lift (handle_includes element path)
           else mret element
         else mret element);
      (* handle super entries *)
      element ←
        (if String.eqb (tag element) "body" then
           if 0 <? length (findall SUPER_ENTRY element) then
             lift (handle_super_entries element)
           else mret element
         else mret element);
      (* process leaf nodes *)
      cs ← for_all (fun child => preprocess depth' child path) (children element);
      mret (set_children element cs)
  end.

End Normaliser.

(** ** Shapes of trees and tags *)

(** The number of nested calls a walk of the tree needs. *)
Fixpoint height (element : Element) : nat :=
  S (foldr (fun c h => Nat.max (height c) h) 0 (children element)).

(** A computation that only adds lines to what [stderr] holds. *)
Definition appends_only {A} (m : M A) : Prop :=
  forall err, exists lines, snd (m err) = err ++ lines.

(** No element of the subtree, [element] included, is tagged [t]. *)
Definition no_tag (t : string) (element : Element) : Prop :=
  Forall (fun n => tag n <> t) (iter element).

(** Does the string hold a brace? *)
Fixpoint has_brace (s : string) : bool :=
  match s with
  | EmptyString => false
  | String c s' => Ascii.eqb c "{"%char || Ascii.eqb c "}"%char || has_brace s'
  end.

(** The string after its first closing brace. *)
Fixpoint after_brace (s : string) : string :=
  match s with
  | EmptyString => EmptyString
  | String c s' => if Ascii.eqb c "}"%char then s' else after_brace s'
  end.

(** The local name of a tag in the parser's notation: the tag itself, or
    what follows [{uri}]. *)
Definition local_name (t : string) : string :=
  if String.prefix "{" t then after_brace t else t.

(** A tag as the parser writes it: [local] or [{uri}local], where the
    local name is an XML name and so holds no brace. *)
Definition parsed_tag (t : string) : bool := negb (has_brace (local_name t)).

(** Every tag of the subtree is as the parser writes it. *)
Definition parsed_tree (element : Element) : Prop :=
  Forall (fun n => parsed_tag (tag n) = true) (iter element).

(** A bare name carries no namespace. *)
Definition is_bare (t : string) : bool := negb (String.prefix "{" t).

(** Namespace stripping alone, as the specification names it:
    [remove_namespace] on the element and then on every descendant, in
    document order, and nothing else. *)
Fixpoint strip_namespaces (element : Element) : M Element :=
  element' ← remove_namespace element;
  cs ← for_all strip_namespaces (children element);
  mret (set_children element' cs).

(** What [remove_namespace] makes of a tag, and what it writes. *)
Definition strip_name (t : string) : string :=
  if String.prefix TEI_NS t then string_from (String.length TEI_NS) t else t.

Definition strip_line (t : string) : list string :=
  if String.prefix TEI_NS t then [] else ["ERROR: " +:+ t +:+ newline].

(** The tree and the lines that namespace stripping leaves. *)
Fixpoint strip_tree (element : Element) : Element :=
  mkElement (oid element) (strip_name (tag element)) (text element)
            (tail element) (attrib element) (map strip_tree (children element)).

Fixpoint strip_log (element : Element) : list string :=
  strip_line (tag element) ++ flat_map strip_log (children element).

(** ** Headword index *)

(** One step of the inner loop of the main program: [entry] joins the
    bucket of its spelling [o], which is made when it is not there. *)
Definition merge_step (entry : DictEntry) (entries : gmap string (list DictEntry))
    (o : string) : gmap string (list DictEntry) :=
  match entries !! o with
  | Some bucket => <[o := bucket ++ [entry]]> entries
  | None => <[o := [entry]]> entries
  end.

(** The inner loop, under its guard [entry.orth is not None]. *)
Definition merge_entry (entries : gmap string (list DictEntry)) (entry : DictEntry)
  : gmap string (list DictEntry) :=
  match orth entry with
  | None => entries
  | Some l => foldl (merge_step entry) entries l
  end.

(** The merge loop over entries already extracted, in encounter order. *)
Definition aggregate (extracted : list DictEntry) : gmap string (list DictEntry) :=
  foldl merge_entry ∅ extracted.

(** The loop of the main program over the children of the body. *)
Definition build_index (body : Element) : result (gmap string (list DictEntry)) :=
  for_each (fun element entries =>
              if String.eqb (tag element) "entry" then
                '(entry, _) ← collect element DictEntry_new [];
                Ok (merge_entry entries entry)
              else Ok entries)
           (children body) ∅.

(** ** What the walks see: elements by dotted path *)

(** Every element of the subtree of [element] whose dotted path is [p], in
    document order, each with the prefix under which the walk reaches it.
    [prefix] is the list of tags above [element]. *)
Fixpoint nodes_at (p : string) (prefix : list string) (element : Element)
  : list (list string * Element) :=
  (if String.eqb (join (prefix ++ [tag element])) p then [(prefix, element)] else [])
  ++ flat_map (nodes_at p (prefix ++ [tag element])) (children element).

(** The texts of those elements ([None] for an element without text). *)
Definition texts_at (p : string) (prefix : list string) (element : Element)
  : list (option string) :=
  map (fun n => text (snd n)) (nodes_at p prefix element).

(** A field after a run of [append_field]s. *)
Definition extend_field {A} (field : option (list A)) (l : list A) : option (list A) :=
  match l with
  | [] => field
  | _ => Some (default [] field ++ l)
  end.

Definition ORTH_PATH : string := "entry.form.orth".
Definition PRON_PATH : string := "entry.form.pron".
Definition GEN_PATH : string := "entry.gramGrp.gen".
Definition POS_PATH : string := "entry.gramGrp.pos".
Definition SENSE_PATH : string := "entry.sense".
Definition QUOTE_PATH : string := "entry.sense.cit.quote".
Definition DEF_PATH : string := "entry.sense.sense.def".

(** The elements with dotted path [p] that the generic walk of [collect]
    reaches: as [nodes_at], but the walk does not go below an element at
    [entry.sense]. *)
Fixpoint visited_at (p : string) (prefix : list string) (element : Element)
  : list (list string * Element) :=
  (if String.eqb (join (prefix ++ [tag element])) p then [(prefix, element)] else [])
  ++ (if String.eqb (join (prefix ++ [tag element])) SENSE_PATH then []
      else flat_map (visited_at p (prefix ++ [tag element])) (children element)).

(** The texts that are not [None], in order. *)
Definition present (l : list (option string)) : list string := omap id l.

(** A part-of-speech field after one more text. *)
Definition add_pos (field : option (list string)) (t : string) : option (list string) :=
  match field with
  | None => Some [t]
  | Some l => if str_in t l then Some l else Some (l ++ [t])
  end.

(** The sense record built from a sense element reached under [prefix]. *)
Definition sense_of (n : list string * Element) : DictSense :=
  mkDictSense (extend_field None (texts_at QUOTE_PATH (fst n) (snd n)))
              (extend_field None (texts_at DEF_PATH (fst n) (snd n))).

(** The texts of located elements. *)
Definition texts (ns : list (list string * Element)) : list (option string) :=
  map (fun n => text (snd n)) ns.

(** The entry after the walk has met the elements [found p] at each of
    the five paths [p]: texts that are [None] count for the gender only,
    a part of speech is added once, every sense element gives one sense. *)
Definition entry_extend (output : DictEntry)
    (found : string -> list (list string * Element)) : DictEntry :=
  {| orth := extend_field (orth output) (present (texts (found ORTH_PATH)));
     pron := extend_field (pron output) (present (texts (found PRON_PATH)));
     gen := extend_field (gen output) (texts (found GEN_PATH));
     pos := foldl add_pos (pos output) (present (texts (found POS_PATH)));
     senses := extend_field (senses output) (map sense_of (found SENSE_PATH)) |}.

(** The sense after the quotes [qs] and the definitions [ds] were appended. *)
Definition sense_extend (sense : DictSense) (qs ds : list (option string)) : DictSense :=
  mkDictSense (extend_field (quotes sense) qs) (extend_field (defs sense) ds).

(** What one element adds by itself, before the walk goes on. *)
Definition here (path : string) (prefix : list string) (e : Element) (p : string)
  : list (list string * Element) :=
  if String.eqb path p then [(prefix, e)] else [].

(** The loop over the children and the final [pop] of [collect]. *)
Definition walk_children (e : Element) (prefix : list string) (output : DictEntry)
  : result (DictEntry * list string) :=
  '(output, prefix) ← for_each (fun child '(output, prefix) =>
                                   collect child output prefix)
                                (children e) (output, prefix);
  prefix ← list_pop prefix;
  Ok (output, prefix).

(** ** Sample documents and entries *)

(** An element without tail and attributes. *)
Definition elem (i : nat) (t : string) (x : option string) (cs : list Element) : Element :=
  mkElement i t x None ∅ cs.

Definition cat_entry : Element :=
  elem 0 "entry" None
    [ elem 1 "form" None [ elem 2 "orth" (Some "cat") [] ];
      elem 3 "gramGrp" None [ elem 4 "pos" (Some "n") [] ];
      elem 5 "sense" None
        [ elem 6 "cit" None [ elem 7 "quote" (Some "Example.") [] ];
          elem 8 "sense" None [ elem 9 "def" (Some "A feline.") [] ] ] ].

(** The sense element of the example entry. *)
Definition cat_sense : Element :=
  elem 5 "sense" None
    [ elem 6 "cit" None [ elem 7 "quote" (Some "Example.") [] ];
      elem 8 "sense" None [ elem 9 "def" (Some "A feline.") [] ] ].

(** [<entry><gramGrp><pos>n</pos><pos>n</pos></gramGrp></entry>] *)
Definition twice_pos_entry : Element :=
  elem 0 "entry" None
    [ elem 1 "gramGrp" None
        [ elem 2 "pos" (Some "n") []; elem 3 "pos" (Some "n") [] ] ].

(** [<sense><cit><quote/></cit><sense><def/></sense></sense>] *)
Definition empty_quote_sense : Element :=
  elem 0 "sense" None
    [ elem 1 "cit" None [ elem 2 "quote" None [] ];
      elem 3 "sense" None [ elem 4 "def" None [] ] ].

(** [<entry><form><orth/><pron/></form><gramGrp><pos/><gen/></gramGrp></entry>] *)
Definition empty_fields_entry : Element :=
  elem 0 "entry" None
    [ elem 1 "form" None [ elem 2 "orth" None []; elem 3 "pron" None [] ];
      elem 4 "gramGrp" None [ elem 5 "pos" None []; elem 6 "gen" None [] ] ].

(** A small TEI body as the parser gives it:
    [<body><entry><form><orth>cat</orth></form></entry></body>] in the TEI
    namespace. *)
Definition tei_body : Element :=
  elem 0 "{http://www.tei-c.org/ns/1.0}body" None
    [ elem 1 "{http://www.tei-c.org/ns/1.0}entry" None
        [ elem 2 "{http://www.tei-c.org/ns/1.0}form" None
            [ elem 3 "{http://www.tei-c.org/ns/1.0}orth" (Some "cat") [] ] ] ].

(** An element whose tag is a bare name. *)
Definition bare_entry : Element := elem 0 "entry" None [].

(** A parser that finds no file. *)
Definition no_files : string -> option Element := fun _ => None.

(** An inclusion directive with an [href]. *)
Definition include (i : nat) (href : string) : Element :=
  mkElement i XINCLUDE None None {[ "href" := href ]} [].

(** A body with two inclusion directives, and two files of which the
    first has an inclusion directive of its own at top level. *)
Definition two_includes_body : Element :=
  elem 0 "body" None [ include 1 "a.tei"; include 2 "b.tei" ].

Definition file_a : Element :=
  elem 10 "{http://www.tei-c.org/ns/1.0}TEI" None [ include 11 "c.tei" ].

Definition file_b : Element :=
  elem 20 "{http://www.tei-c.org/ns/1.0}TEI" None
    [ elem 21 "{http://www.tei-c.org/ns/1.0}entry" None [] ].

Definition nested_files (filename : string) : option Element :=
  if String.eqb filename "temp/a.tei" then Some file_a
  else if String.eqb filename "temp/b.tei" then Some file_b
  else None.

(** A body of an inclusion directive and a note outside the TEI
    namespace. *)
Definition include_note_body : Element :=
  elem 0 "{http://www.tei-c.org/ns/1.0}body" None
    [ include 1 "b.tei"; elem 2 "{urn:x}note" None [] ].

(** A body with one super entry of two entries between two other
    entries. *)
Definition super_body : Element :=
  elem 0 "body" None
    [ elem 1 "{http://www.tei-c.org/ns/1.0}entry" None [];
      elem 2 SUPER_ENTRY None
        [ elem 3 "{http://www.tei-c.org/ns/1.0}entry" (Some "first") [];
          elem 4 "{http://www.tei-c.org/ns/1.0}entry" (Some "second") [] ];
      elem 5 "{http://www.tei-c.org/ns/1.0}entry" None [] ].

(** A body with a super entry inside a super entry:
    [<body><p/><s><e1/><s><e3/></s></s><q/></body>], [s] the TEI super
    entry. *)
Definition nested_super_body : Element :=
  elem 0 "body" None
    [ elem 1 "p" None [];
      elem 2 SUPER_ENTRY None
        [ elem 3 "e1" None [];
          elem 4 SUPER_ENTRY None [ elem 5 "e3" None [] ] ];
      elem 6 "q" None [] ].

(** A body whose super entry lies below a [div]. *)
Definition deep_super_body : Element :=
  elem 0 "body" None
    [ elem 1 "{http://www.tei-c.org/ns/1.0}div" None
        [ elem 2 SUPER_ENTRY None
            [ elem 3 "{http://www.tei-c.org/ns/1.0}entry" None [];
              elem 4 "{http://www.tei-c.org/ns/1.0}entry" None [] ] ] ].

(** The same body as the parser gives it, its tag in the TEI namespace. *)
Definition deep_super_tei_body : Element :=
  elem 0 "{http://www.tei-c.org/ns/1.0}body" None
    [ elem 1 "{http://www.tei-c.org/ns/1.0}div" None
        [ elem 2 SUPER_ENTRY None
            [ elem 3 "{http://www.tei-c.org/ns/1.0}entry" None [];
              elem 4 "{http://www.tei-c.org/ns/1.0}entry" None [] ] ] ].

(** How often the entry declares the spelling [k]. *)
Definition declared (k : string) (entry : DictEntry) : nat :=
  length (filter (fun o => o = k) (default [] (orth entry))).

(** The bucket of [k]: the entries in encounter order, each as often as it
    declares [k]. *)
Definition bucket (k : string) (extracted : list DictEntry) : list DictEntry :=
  flat_map (fun entry => replicate (declared k entry) entry) extracted.

(** What the extractor makes of an entry element. *)
Definition extracted_entry (element : Element) : DictEntry :=
  entry_extend DictEntry_new (fun p => nodes_at p [] element).

(** The entries of a body, in the order of its children. *)
Definition extracted_entries (body : Element) : list DictEntry :=
  map extracted_entry (filter (fun element => tag element = "entry") (children body)).

(** Two entries that declare [run], and one without orthography between
    them. *)
Definition run_verb : DictEntry :=
  mkDictEntry (Some ["run"]) None None (Some ["v"]) None.
Definition run_noun : DictEntry :=
  mkDictEntry (Some ["run"; "runs"]) None None (Some ["n"]) None.
Definition orthless : DictEntry :=
  mkDictEntry None (Some ["x"]) None None None.

(** ** Further notions for the walks and the normaliser *)

(** The number of dots of a string. *)
Fixpoint dots (s : string) : nat :=
  match s with
  | EmptyString => 0
  | String c s' => (if Ascii.eqb c "."%char then 1 else 0) + dots s'
  end.

(** What an inclusion directive stands for: the children of the root of
    the file its [href] names; nothing for any other element. *)
Definition included (parse : string -> option Element) (path : string)
    (subtree : Element) : list Element :=
  if String.eqb (tag subtree) XINCLUDE then
    match attrib subtree !! "href" with
    | Some href =>
        match parse (path +:+ "/" +:+ href) with
        | Some root => children root
        | None => []
        end
    | None => []
    end
  else [].

(** The directive names a file that parses. *)
Definition resolves (parse : string -> option Element) (path : string)
    (subtree : Element) : Prop :=
  tag subtree = XINCLUDE ->
  exists href root,
    attrib subtree !! "href" = Some href /\
    parse (path +:+ "/" +:+ href) = Some root.

(** A def two sub-senses deep, reached under four tags. *)
Definition deep_def : Element := elem 25 "def" (Some "deep") [].

(** A body with an inclusion directive below a [div] only. *)
Definition deep_include_body : Element :=
  mkElement 0 "{http://www.tei-c.org/ns/1.0}body" (Some "t") None {[ "n" := "1" ]}
    [ elem 1 "{http://www.tei-c.org/ns/1.0}div" None [ include 2 "a.tei" ];
      elem 3 "{http://www.tei-c.org/ns/1.0}entry" None [] ].

(** A body with two super entries among its children. *)
Definition two_supers_body : Element :=
  elem 0 "body" None
    [ elem 1 SUPER_ENTRY None [ elem 2 "a" None []; elem 3 "b" None [] ];
      elem 4 "p" None [];
      elem 5 SUPER_ENTRY None [ elem 6 "c" None [] ];
      elem 7 "q" None [] ].

(** A directive without [href]. *)
Definition bad_include_body : Element :=
  elem 0 "body" None [ include 1 "b.tei"; mkElement 2 XINCLUDE None None ∅ [] ].

(** ** Language pairs and the choice of dictionaries *)

(** What ends a run besides a return: an exception of the core, the
    other exceptions of the main program, or [sys.exit]. *)
Inductive stop : Type :=
  | Uncaught (e : exn)
  | KeyError
  | ZeroDivisionError
  | SystemExit (code : Z).

Inductive outcome (A : Type) : Type :=
  | Returns (a : A)
  | Stops (s : stop).
Arguments Returns {A} a.
Arguments Stops {A} s.

(** The dict [map] of [create_pair], in the order of the source. *)
Definition LANGUAGE_CODES : list (string * string) :=
  [ ("afr", "af"); ("ara", "ar"); ("bre", "br"); ("bul", "bg"); ("cat", "ca");
    ("ces", "cs"); ("cym", "cy"); ("dan", "da"); ("deu", "de"); ("ell", "el");
    ("eng", "en"); ("epo", "eo"); ("fin", "fi"); ("fra", "fr"); ("gla", "gd");
    ("gle", "ga"); ("hin", "hi"); ("hrv", "hr"); ("hun", "hu"); ("ind", "id");
    ("isl", "is"); ("ita", "it"); ("jpn", "ja"); ("kur", "ku"); ("lat", "la");
    ("lit", "lt"); ("mkd", "mk"); ("mlg", "mg"); ("nld", "nl"); ("nno", "nn");
    ("nob", "nb"); ("nor", "no"); ("oci", "oc"); ("pol", "pl"); ("por", "pt");
    ("rom", "ro"); ("rus", "ru"); ("san", "sa"); ("slk", "sk"); ("slv", "sl");
    ("spa", "es"); ("srp", "sr"); ("swe", "sv"); ("swh", "sw"); ("tur", "tr");
    ("wol", "wo"); ("zho", "zh") ].

Definition language_map : gmap string string := list_to_map LANGUAGE_CODES.

(** [create_pair]: the two-letter pair, or an error line on [stderr] and
    [sys.exit(-1)] for the first code that the map lacks. *)
Definition create_pair (src_lang dst_lang : string) (err : list string)
  : outcome string * list string :=
  match language_map !! src_lang with
  | None =>
      (Stops (SystemExit (-1)), err ++ ["error: mapping missing for " +:+ src_lang])
  | Some src =>
      match language_map !! dst_lang with
      | None =>
          (Stops (SystemExit (-1)),
           err ++ ["error: mapping missing for " +:+ dst_lang])
      | Some dst => (Returns (src +:+ "-" +:+ dst), err)
      end
  end.

(** [s.split("-")]: the pieces between the hyphens, at least one. *)
Fixpoint split_hyphen (s : string) : list string :=
  match s with
  | EmptyString => [EmptyString]
  | String c s' =>
      if Ascii.eqb c "-"%char then EmptyString :: split_hyphen s'
      else match split_hyphen s' with
           | [] => [String c EmptyString]
           | piece :: pieces => String c piece :: pieces
           end
  end.

(** [s.endswith(suffix)] *)
Definition endswith (s suffix : string) : bool :=
  (String.length suffix <=? String.length s) &&
  String.eqb (string_from (String.length s - String.length suffix) s) suffix.

(** An item of the catalog: whether it has the key [software], and its
    [name] when it has one. *)
Record Descriptor : Type := mkDescriptor {
  has_software : bool;
  name : option string
}.

(** The head of the loop over the catalog, up to [create_pair]: [None]
    when the dictionary is skipped ([continue]), else its pair. *)
Definition dict_pair (dict : Descriptor) (err : list string)
  : outcome (option string) * list string :=
  (* skip freedict tools *)
  if has_software dict then (Returns None, err)
  else
    match name dict with
    | None => (Stops KeyError, err)
    | Some name =>
        (* skip dict: central kurdish (ku) to northern kurdish (ku) *)
        if String.eqb name "ckb-kmr" then (Returns None, err)
        (* skip lang: khasi (not in iso-639-1) *)
        else if String.prefix "kha" name then (Returns None, err)
        (* skip lang: asturian (not in iso-639-1) *)
        else if endswith name "ast" then (Returns None, err)
        else
          (* create prefix *)
          match split_hyphen name with
          | src_lang :: dst_lang :: _ =>
              match create_pair src_lang dst_lang err with
              | (Returns code, err') => (Returns (Some code), err')
              | (Stops s, err') => (Stops s, err')
              end
          | _ => (Stops (Uncaught IndexError), err)
          end
    end.

(** The string holds no hyphen. *)
Fixpoint hyphen_free (s : string) : bool :=
  match s with
  | EmptyString => true
  | String c s' => negb (Ascii.eqb c "-"%char) && hyphen_free s'
  end.

(** The three skip rules on names. *)
Definition skipped (n : string) : bool :=
  String.eqb n "ckb-kmr" || String.prefix "kha" n || endswith n "ast".

(** What the loop does with the outcome of [create_pair]. *)
Definition paired (r : outcome string * list string)
  : outcome (option string) * list string :=
  match r with
  | (Returns code, err) => (Returns (Some code), err)
  | (Stops s, err) => (Stops s, err)
  end.

(** ** HTML renderer *)

(** What the renderer changes: the files, each as the strings written to
    it since it was opened, and the lines written to [sys.stderr]. *)
Record World : Type := mkWorld {
  files : gmap string (list string);
  stderr : list string
}.

(** The double quote, and a string between double quotes. *)
Definition dq : string := String (Ascii.ascii_of_nat 34) "".
Definition quoted (s : string) : string := dq +:+ s +:+ dq.

(** The truth value of a field: [None] and [[]] are false. *)
Definition truthy {A} (field : option (list A)) : bool :=
  match field with
  | Some (_ :: _) => true
  | _ => false
  end.

(** The items when all of them are strings. *)
Fixpoint all_texts (items : list (option string)) : option (list string) :=
  match items with
  | [] => Some []
  | Some x :: items' => xs ← all_texts items'; Some (x :: xs)
  | None :: _ => None
  end.

(** [sep.join(items)]: [TypeError] when an item is [None]. *)
Definition join_texts (sep : string) (items : list (option string)) : result string :=
  match all_texts items with
  | Some xs => Ok (String.concat sep xs)
  | None => Raise TypeError
  end.

(** A text in an f-string: [None] prints as [None]. *)
Definition format_text (x : option string) : string := default "None" x.

(** The ten lines before the entries and the two after them. *)
Definition PAGE_HEAD : list string :=
  [ "<!doctype html>" +:+ newline;
    "<html>" +:+ newline;
    "<head>" +:+ newline;
    "  <meta charset=" +:+ quoted "utf-8" +:+ ">" +:+ newline;
    "  <meta name=" +:+ quoted "viewport" +:+ " content="
      +:+ quoted "width=device-width, initial-scale=1.0" +:+ ">" +:+ newline;
    "  <title>FreeDicts</title>" +:+ newline;
    "  <link rel=" +:+ quoted "stylesheet" +:+ " href=" +:+ quoted "dict.css"
      +:+ ">" +:+ newline;
    "  <link rel=" +:+ quoted "icon" +:+ " href=" +:+ quoted "../favicon.ico"
      +:+ ">" +:+ newline;
    "</head>" +:+ newline;
    "<body>" +:+ newline ].

Definition PAGE_FOOT : list string :=
  [ "</body>" +:+ newline; "</html>" +:+ newline ].

(** The writes for one sense: its numbered line, its quotes, its defs. *)
Definition sense_writes (pos_gen : string) (sense_index : nat) (sense : DictSense)
  : list string :=
  [ "  <b>" +:+ pretty sense_index +:+ ". </b>" +:+ pos_gen +:+ "<br/>" +:+ newline ]
  ++ (if truthy (quotes sense) then
        map (fun quote => "  <p class=" +:+ quoted "quote" +:+ ">"
                          +:+ format_text quote +:+ "</p>" +:+ newline)
            (default [] (quotes sense))
      else [])
  ++ (if truthy (defs sense) then
        map (fun defn => "  <p class=" +:+ quoted "def" +:+ ">- "
                         +:+ format_text defn +:+ "</p>" +:+ newline)
            (default [] (defs sense))
      else []).

(** The writes for one entry of [count], and how the loop body ends: it
    raises when the gender list cannot be joined, after the title and the
    pronunciation were written. *)
Definition entry_writes (orth : string) (count index : nat) (entry : DictEntry)
  : list string * result unit :=
  (* title *)
  let title :=
    if count =? 1 then [ "  <h3>" +:+ orth +:+ "</h3>" +:+ newline ]
    else [ "  <h3>" +:+ orth +:+ "<sup>" +:+ pretty index +:+ "</sup></h3>"
           +:+ newline ] in
  (* pronunciation *)
  let pronunciation :=
    if truthy (pron entry) then
      [ "  <span class=" +:+ quoted "pron" +:+ ">"
        +:+ String.concat " " (default [] (pron entry)) +:+ "</span><br/>"
        +:+ newline ]
    else [] in
  (* pos & gen *)
  let pos_gen := "" in
  let pos_gen :=
    if truthy (pos entry) then
      pos_gen +:+ "<span class=" +:+ quoted "pos" +:+ ">"
      +:+ String.concat " " (map (fun pos => "[" +:+ pos +:+ "]")
                                 (default [] (pos entry)))
      +:+ "</span>"
    else pos_gen in
  let pos_gen :=
    if truthy (pos entry) && truthy (gen entry) then pos_gen +:+ " " else pos_gen in
  let pos_gen :=
    if truthy (gen entry) then
      joined ← join_texts " " (default [] (gen entry));
      Ok (pos_gen +:+ "<span class=" +:+ quoted "gen" +:+ ">" +:+ joined
          +:+ "</span>")
    else Ok pos_gen in
  match pos_gen with
  | Raise e => (title ++ pronunciation, Raise e)
  | Ok pos_gen =>
      (* senses *)
      (title ++ pronunciation
       ++ (if truthy (senses entry) then
             concat (imap (fun i sense => sense_writes pos_gen (S i) sense)
                          (default [] (senses entry)))
           else []),
       Ok tt)
  end.

(** The loop over the entries, from [index] on: the writes up to the end
    or up to the exception. *)
Fixpoint entries_writes (orth : string) (count index : nat) (entries : list DictEntry)
  : list string * result unit :=
  match entries with
  | [] => ([], Ok tt)
  | entry :: entries' =>
      match entry_writes orth count index entry with
      | (ws, Ok _) =>
          let '(ws', r) := entries_writes orth count (S index) entries' in
          (ws ++ ws', r)
      | (ws, Raise e) => (ws, Raise e)
      end
  end.

(** [s.replace(" ", "_")] *)
Fixpoint replace_space (s : string) : string :=
  match s with
  | EmptyString => EmptyString
  | String c s' =>
      String (if Ascii.eqb c " "%char then "_"%char else c) (replace_space s')
  end.

Section Renderer.

(** Whether [open(filename, "w")] succeeds.  A write to an open file is
    taken to succeed. *)
Variable creatable : string -> bool.

(** [generate_html]: [1] when the page was written, [0] with a warning
    when the file could not be opened; an exception of the loop is not
    caught and leaves the file as far as it was written. *)
Definition generate_html (orth : string) (entries : list DictEntry)
    (filename : string) (w : World) : result nat * World :=
  if creatable filename then
    match entries_writes orth (length entries) 1 entries with
    | (ws, Ok _) =>
        (Ok 1, mkWorld (<[filename := PAGE_HEAD ++ ws ++ PAGE_FOOT]> (files w))
                       (stderr w))
    | (ws, Raise e) =>
        (Raise e, mkWorld (<[filename := PAGE_HEAD ++ ws]> (files w)) (stderr w))
    end
  else
    (Ok 0, mkWorld (files w)
                   (stderr w ++ ["warn: failed to create file " +:+ filename
                                 +:+ newline])).

Definition generate_orth (orth : string) (entries : list DictEntry)
    (html_path : string) (w : World) : result nat * World :=
  let converted := replace_space orth in
  if String.eqb orth converted then
    generate_html orth entries (html_path +:+ "/" +:+ orth +:+ ".html") w
  else
    match generate_html orth entries (html_path +:+ "/" +:+ orth +:+ ".html") w with
    | (Raise e, w1) => (Raise e, w1)
    | (Ok n1, w1) =>
        match generate_html orth entries
                (html_path +:+ "/" +:+ converted +:+ ".html") w1 with
        | (Raise e, w2) => (Raise e, w2)
        | (Ok n2, w2) => (Ok (if n1 =? 0 then n2 else n1), w2)
        end
    end.

(** The text of [succ * 100.0 / total] under the format [%.2f], for a
    [total] that is not zero. *)
Variable format_percent : nat -> nat -> string.

(** The loop over the sorted headwords: the count of successes. *)
Definition generate_sorted (entries : gmap string (list DictEntry))
    (html_path : string) : list string -> nat -> World -> outcome nat * World :=
  fix loop (orths : list string) (succ : nat) (w : World) : outcome nat * World :=
    match orths with
    | [] => (Returns succ, w)
    | orth :: orths' =>
        match entries !! orth with
        | None => (Stops KeyError, w)
        | Some bucket =>
            match generate_orth orth bucket html_path w with
            | (Raise e, w') => (Stops (Uncaught e), w')
            | (Ok n, w') => loop orths' (succ + n) w'
            end
        end
    end.

(** [sorted(entries.keys())] *)
Definition sorted_keys (entries : gmap string (list DictEntry)) : list string :=
  merge_sort String.le (fst <$> map_to_list entries).

(** The end of the loop body of the main program: the pages of one
    dictionary and the line on its success rate. *)
Definition generate_pages (pair html_path : string)
    (entries : gmap string (list DictEntry)) (w : World) : outcome unit * World :=
  let w := mkWorld (files w) (stderr w ++ ["generate " +:+ html_path +:+ newline]) in
  let total := size entries in
  match generate_sorted entries html_path (sorted_keys entries) 0 w with
  | (Stops s, w') => (Stops s, w')
  | (Returns succ, w') =>
      if total =? 0 then (Stops ZeroDivisionError, w')
      else
        (Returns tt,
         mkWorld (files w')
                 (stderr w' ++ [" - " +:+ pair +:+ ": " +:+ format_percent succ total
                                +:+ "% entries generated" +:+ newline]))
  end.

End Renderer.

(** Every gender of the entry is a string. *)
Definition gen_texts (entry : DictEntry) : bool :=
  bool_decide (is_Some (all_texts (default [] (gen entry)))).

(** Sample entries for the renderer. *)
Definition plain_run : DictEntry :=
  mkDictEntry (Some ["run"]) (Some ["r^n"]) (Some [Some "m"]) (Some ["n"; "v"])
    (Some [ mkDictSense (Some [Some "a run"; None]) (Some [Some "course"]) ]).
Definition gen_less : DictEntry :=
  mkDictEntry (Some ["cat"]) None (Some [None]) (Some ["n"]) None.

(** A file system in which every file can be created, and one in which
    none can. *)
Definition all_creatable : string -> bool := fun _ => true.
Definition none_creatable : string -> bool := fun _ => false.
Definition empty_world : World := mkWorld ∅ [].

(** The files that [generate_orth] writes for a headword: one, or two
    when the headword holds a space. *)
Definition targets (html_path orth : string) : list string :=
  if String.eqb orth (replace_space orth) then
    [ html_path +:+ "/" +:+ orth +:+ ".html" ]
  else
    [ html_path +:+ "/" +:+ orth +:+ ".html";
      html_path +:+ "/" +:+ replace_space orth +:+ ".html" ].

(** The page of a headword when the loop over its entries ends well. *)
Definition page (orth : string) (entries : list DictEntry) : list string :=
  PAGE_HEAD ++ fst (entries_writes orth (length entries) 1 entries) ++ PAGE_FOOT.

(** The warning for a file that could not be opened. *)
Definition warning (filename : string) : string :=
  "warn: failed to create file " +:+ filename +:+ newline.

(** Does the string hold a space? *)
Fixpoint has_space (s : string) : bool :=
  match s with
  | EmptyString => false
  | String c s' => Ascii.eqb c " "%char || has_space s'
  end.

(** One attempt to write the page [p] to the file [f]. *)
Definition attempt (creatable : string -> bool) (p : list string) (w : World)
    (f : string) : World :=
  if creatable f then mkWorld (<[f := p]> (files w)) (stderr w)
  else mkWorld (files w) (stderr w ++ [warning f]).

(** [<entry><form><orth>cat</orth></form><gramGrp><gen/></gramGrp></entry>]
    and a body that holds it. *)
Definition gen_entry : Element :=
  elem 1 "entry" None
    [ elem 2 "form" None [ elem 3 "orth" (Some "cat") [] ];
      elem 4 "gramGrp" None [ elem 5 "gen" None [] ] ].
Definition gen_body : Element := elem 0 "body" None [ gen_entry ].

(** * Properties *)

(** ** Reasoning principles *)

(** Structural induction on elements, with the hypothesis for every child. *)
Lemma Element_ind (P : Element -> Prop) :
  (forall i t x tl a cs, Forall P cs -> P (mkElement i t x tl a cs)) ->
  forall e, P e.
Proof.
  intros step. fix IH 1. intros [i t x tl a cs]. apply step.
  induction cs as [|c cs IHcs]; constructor; [apply IH | exact IHcs].
Qed.

Lemma for_each_cons {A S} (body : A -> S -> result S) x l s :
  for_each body (x :: l) s = s' ← body x s; for_each body l s'.
Proof. reflexivity. Qed.

Lemma for_each_app {A S} (body : A -> S -> result S) l1 l2 s :
  for_each body (l1 ++ l2) s = s' ← for_each body l1 s; for_each body l2 s'.
Proof.
  revert s. induction l1 as [|x l1 IH]; intros s; simpl; [done|].
  destruct (body x s) as [s'|e]; simpl; [apply IH | done].
Qed.

Lemma append_field_extend {A} (field : option (list A)) x :
  append_field field x = extend_field field [x].
Proof. by destruct field. Qed.

Lemma extend_field_app {A} (field : option (list A)) l1 l2 :
  extend_field (extend_field field l1) l2 = extend_field field (l1 ++ l2).
Proof.
  destruct l1 as [|x l1]; [done|]. destruct l2 as [|y l2].
  - by rewrite app_nil_r.
  - simpl. by rewrite <- app_assoc.
Qed.

Lemma list_pop_app {A} (l : list A) x : list_pop (l ++ [x]) = Ok l.
Proof.
  unfold list_pop. rewrite removelast_last. by destruct l.
Qed.

(** ** The extractor on the example entry *)

(** C1: extracting the example entry with a fresh [DictEntry] and an empty
    path prefix gives orthography ["cat"], part of speech ["n"], exactly
    one sense with quotes ["Example."] and defs ["A feline."], and leaves
    pronunciation and gender absent; the prefix is empty again. *)
Theorem collect_cat_entry :
  collect cat_entry DictEntry_new [] =
  Ok ({| orth := Some ["cat"];
         pron := None;
         gen := None;
         pos := Some ["n"];
         senses := Some [ {| quotes := Some [Some "Example."];
                             defs := Some [Some "A feline."] |} ] |}, []).
Proof. vm_compute. reflexivity. Qed.


(** ** The sense extractor *)

Lemma nodes_at_unfold p prefix e :
  nodes_at p prefix e =
  (if String.eqb (join (prefix ++ [tag e])) p then [(prefix, e)] else [])
  ++ flat_map (nodes_at p (prefix ++ [tag e])) (children e).
Proof. by destruct e. Qed.

Lemma texts_at_unfold p prefix e :
  texts_at p prefix e =
  (if String.eqb (join (prefix ++ [tag e])) p then [text e] else [])
  ++ flat_map (texts_at p (prefix ++ [tag e])) (children e).
Proof.
  unfold texts_at. rewrite nodes_at_unfold, map_app. f_equal.
  - by destruct (String.eqb _ _).
  - induction (children e) as [|c cs IH]; simpl; [done|].
    by rewrite map_app, IH.
Qed.

Lemma collect_sense_unfold e sense prefix :
  collect_sense e sense prefix =
  let prefix := prefix ++ [tag e] in
  let path := join prefix in
  let sense :=
    if String.eqb path QUOTE_PATH then
      set_quotes sense (append_field (quotes sense) (text e))
    else if String.eqb path DEF_PATH then
      set_defs sense (append_field (defs sense) (text e))
    else sense in
  '(sense, prefix) ← for_each (fun child '(sense, prefix) =>
                                  collect_sense child sense prefix)
                               (children e) (sense, prefix);
  prefix ← list_pop prefix;
  Ok (sense, prefix).
Proof. by destruct e. Qed.

Lemma sense_extend_extend sense qs ds qs' ds' :
  sense_extend (sense_extend sense qs ds) qs' ds' =
  sense_extend sense (qs ++ qs') (ds ++ ds').
Proof. unfold sense_extend. simpl. by rewrite !extend_field_app. Qed.

Lemma collect_sense_children cs sense prefix :
  Forall (fun c => forall sense prefix,
            collect_sense c sense prefix =
            Ok (sense_extend sense (texts_at QUOTE_PATH prefix c)
                                   (texts_at DEF_PATH prefix c), prefix)) cs ->
  for_each (fun child '(sense, prefix) => collect_sense child sense prefix)
           cs (sense, prefix) =
  Ok (sense_extend sense (flat_map (texts_at QUOTE_PATH prefix) cs)
                         (flat_map (texts_at DEF_PATH prefix) cs), prefix).
Proof.
  intros Hcs. revert sense. induction Hcs as [|c cs Hc _ IH]; intros sense.
  - by destruct sense.
  - simpl. rewrite Hc. simpl. rewrite IH. by rewrite sense_extend_extend.
Qed.

(** The sense extractor always returns, restores the prefix, and appends to
    the sense the texts found at the two paths, in document order. *)
Lemma collect_sense_spec e : forall sense prefix,
  collect_sense e sense prefix =
  Ok (sense_extend sense (texts_at QUOTE_PATH prefix e)
                         (texts_at DEF_PATH prefix e), prefix).
Proof.
  induction e as [i t x tl a cs IH] using Element_ind. intros sense prefix.
  rewrite collect_sense_unfold, !texts_at_unfold. cbn [tag text children].
  cbv zeta. rewrite (collect_sense_children cs _ _ IH). simpl.
  rewrite list_pop_app. simpl.
  rewrite <- sense_extend_extend. do 3 f_equal.
  destruct (String.eqb (join (prefix ++ [t])) QUOTE_PATH) eqn:Hq.
  - apply String.eqb_eq in Hq. rewrite Hq. simpl.
    unfold sense_extend. simpl. by rewrite append_field_extend.
  - destruct (String.eqb (join (prefix ++ [t])) DEF_PATH) eqn:Hd.
    + unfold sense_extend. simpl. by rewrite append_field_extend.
    + by destruct sense.
Qed.

(** ** The entry extractor *)

Lemma collect_unfold e output prefix :
  collect e output prefix =
  let prefix := prefix ++ [tag e] in
  let path := join prefix in
  if String.eqb path ORTH_PATH then
    match text e with
    | Some t => walk_children e prefix (set_orth output (append_field (orth output) t))
    | None => walk_children e prefix output
    end
  else if String.eqb path PRON_PATH then
    match text e with
    | Some t => walk_children e prefix (set_pron output (append_field (pron output) t))
    | None => walk_children e prefix output
    end
  else if String.eqb path GEN_PATH then
    walk_children e prefix (set_gen output (append_field (gen output) (text e)))
  else if String.eqb path POS_PATH then
    match text e with
    | Some t => walk_children e prefix (set_pos output (add_pos (pos output) t))
    | None => walk_children e prefix output
    end
  else if String.eqb path SENSE_PATH then
    prefix ← list_pop prefix;
    '(sense, prefix) ← collect_sense e DictSense_new prefix;
    Ok (set_senses output (append_field (senses output) sense), prefix)
  else walk_children e prefix output.
Proof.
  destruct e as [i t x tl a cs]. cbn [collect tag text children]. cbv zeta.
  unfold ORTH_PATH, PRON_PATH, GEN_PATH, POS_PATH, SENSE_PATH, walk_children.
  cbn [children].
  repeat match goal with
         | |- context [String.eqb ?a ?b] => destruct (String.eqb a b); try reflexivity
         end.
  destruct x as [s|]; [|reflexivity].
  destruct output as [o p g [l|] ss]; cbn [pos add_pos]; [|reflexivity].
  by destruct (str_in s l).
Qed.

Lemma present_app l1 l2 : present (l1 ++ l2) = present l1 ++ present l2.
Proof. apply omap_app. Qed.

Lemma texts_app l1 l2 : texts (l1 ++ l2) = texts l1 ++ texts l2.
Proof. apply map_app. Qed.

Lemma entry_extend_none output : entry_extend output (fun _ => []) = output.
Proof. by destruct output. Qed.

Lemma entry_extend_extend output f g :
  entry_extend (entry_extend output f) g = entry_extend output (fun p => f p ++ g p).
Proof.
  unfold entry_extend. cbn [orth pron gen pos senses].
  rewrite !texts_app, !present_app, !extend_field_app, map_app, foldl_app.
  reflexivity.
Qed.

Lemma entry_extend_ext output f g :
  f ORTH_PATH = g ORTH_PATH -> f PRON_PATH = g PRON_PATH ->
  f GEN_PATH = g GEN_PATH -> f POS_PATH = g POS_PATH ->
  f SENSE_PATH = g SENSE_PATH ->
  entry_extend output f = entry_extend output g.
Proof. unfold entry_extend. by intros -> -> -> -> ->. Qed.

Lemma visited_at_unfold p prefix e :
  visited_at p prefix e =
  (if String.eqb (join (prefix ++ [tag e])) p then [(prefix, e)] else [])
  ++ (if String.eqb (join (prefix ++ [tag e])) SENSE_PATH then []
      else flat_map (visited_at p (prefix ++ [tag e])) (children e)).
Proof. by destruct e. Qed.

Lemma collect_children cs output prefix :
  Forall (fun c => forall output prefix,
            collect c output prefix =
            Ok (entry_extend output (fun p => visited_at p prefix c), prefix)) cs ->
  for_each (fun child '(output, prefix) => collect child output prefix)
           cs (output, prefix) =
  Ok (entry_extend output (fun p => flat_map (visited_at p prefix) cs), prefix).
Proof.
  intros Hcs. revert output. induction Hcs as [|c cs Hc _ IH]; intros output.
  - simpl. by rewrite entry_extend_none.
  - simpl. rewrite Hc. simpl. rewrite IH. by rewrite entry_extend_extend.
Qed.

Lemma here_orth output prefix e :
  entry_extend output (here ORTH_PATH prefix e) =
  match text e with
  | Some t => set_orth output (append_field (orth output) t)
  | None => output
  end.
Proof.
  unfold entry_extend, here; cbn. destruct (text e); cbn.
  - by rewrite append_field_extend.
  - by destruct output.
Qed.

Lemma here_pron output prefix e :
  entry_extend output (here PRON_PATH prefix e) =
  match text e with
  | Some t => set_pron output (append_field (pron output) t)
  | None => output
  end.
Proof.
  unfold entry_extend, here; cbn. destruct (text e); cbn.
  - by rewrite append_field_extend.
  - by destruct output.
Qed.

Lemma here_gen output prefix e :
  entry_extend output (here GEN_PATH prefix e) =
  set_gen output (append_field (gen output) (text e)).
Proof. unfold entry_extend, here; cbn. by rewrite append_field_extend. Qed.

Lemma here_pos output prefix e :
  entry_extend output (here POS_PATH prefix e) =
  match text e with
  | Some t => set_pos output (add_pos (pos output) t)
  | None => output
  end.
Proof.
  unfold entry_extend, here; cbn. destruct (text e); cbn; [done|].
  by destruct output.
Qed.

Lemma here_sense output prefix e :
  entry_extend output (here SENSE_PATH prefix e) =
  set_senses output (append_field (senses output) (sense_of (prefix, e))).
Proof.
  unfold entry_extend, here; cbn - [sense_of]. by rewrite append_field_extend.
Qed.

Lemma here_other output path prefix e :
  path <> ORTH_PATH -> path <> PRON_PATH -> path <> GEN_PATH ->
  path <> POS_PATH -> path <> SENSE_PATH ->
  entry_extend output (here path prefix e) = output.
Proof.
  intros Ho Hp Hg Hq Hs. rewrite <- (entry_extend_none output) at 2.
  apply String.eqb_neq in Ho, Hp, Hg, Hq, Hs.
  apply entry_extend_ext; unfold here; by rewrite ?Ho, ?Hp, ?Hg, ?Hq, ?Hs.
Qed.

(** The entry extractor always returns, restores the prefix, and extends
    the entry by what the generic walk meets at the five paths. *)
Lemma collect_spec e : forall output prefix,
  collect e output prefix =
  Ok (entry_extend output (fun p => visited_at p prefix e), prefix).
Proof.
  induction e as [i t x tl a cs IH] using Element_ind. intros output prefix.
  set (e := mkElement i t x tl a cs).
  assert (Hwalk : forall out,
    walk_children e (prefix ++ [t]) out =
    Ok (entry_extend out (fun p => flat_map (visited_at p (prefix ++ [t])) cs), prefix)).
  { intros out. unfold walk_children. cbn [children e].
    rewrite (collect_children cs _ _ IH). simpl. by rewrite list_pop_app. }
  rewrite collect_unfold. cbn [tag children e]. cbv zeta.
  set (path := join (prefix ++ [t])).
  assert (Hsplit : forall out,
    String.eqb path SENSE_PATH = false ->
    walk_children e (prefix ++ [t]) (entry_extend out (here path prefix e)) =
    Ok (entry_extend out (fun p => visited_at p prefix e), prefix)).
  { intros out Hs. rewrite Hwalk, entry_extend_extend. do 2 f_equal.
    apply entry_extend_ext; rewrite visited_at_unfold; cbn [tag children e].
    all: unfold here; fold path.
    all: by rewrite Hs. }
  destruct (String.eqb_spec path ORTH_PATH) as [Ho|Ho].
  { rewrite <- Hsplit by (by rewrite Ho). rewrite Ho, here_orth. by destruct (text e). }
  destruct (String.eqb_spec path PRON_PATH) as [Hp|Hp].
  { rewrite <- Hsplit by (by rewrite Hp). rewrite Hp, here_pron. by destruct (text e). }
  destruct (String.eqb_spec path GEN_PATH) as [Hg|Hg].
  { rewrite <- Hsplit by (by rewrite Hg). by rewrite Hg, here_gen. }
  destruct (String.eqb_spec path POS_PATH) as [Hq|Hq].
  { rewrite <- Hsplit by (by rewrite Hq). rewrite Hq, here_pos. by destruct (text e). }
  destruct (String.eqb_spec path SENSE_PATH) as [Hs|Hs].
  { rewrite list_pop_app. cbn [mbind result_bind].
    rewrite collect_sense_spec. cbn [mbind result_bind].
    change (sense_extend DictSense_new _ _) with (sense_of (prefix, e)).
    do 2 f_equal. rewrite <- here_sense.
    apply entry_extend_ext; rewrite visited_at_unfold; cbn [tag children e].
    all: fold path; rewrite Hs; by rewrite app_nil_r. }
  rewrite <- Hsplit by done.
  by rewrite here_other.
Qed.

(** ** Strings and dotted paths *)

Lemma str_app_assoc (a b c : string) : (a +:+ b) +:+ c = a +:+ (b +:+ c).
Proof.
  induction a as [|x a IH]; [done|].
  change (String x ((a +:+ b) +:+ c) = String x (a +:+ (b +:+ c))). by rewrite IH.
Qed.

Lemma str_prefix_iff (a s : string) :
  String.prefix a s = true <-> exists b, s = a +:+ b.
Proof.
  revert s. induction a as [|x a IH]; intros s.
  - split; [intros _; by exists s|]. by destruct s.
  - destruct s as [|y s]; cbn.
    + split; [done|]. by intros [b Hb].
    + destruct (Ascii.ascii_dec x y) as [->|Hxy].
      * rewrite IH. split; intros [b Hb]; exists b; [by rewrite Hb|].
        by injection Hb.
      * split; [done|]. intros [b Hb]. injection Hb as Hy _. by destruct Hxy.
Qed.

Lemma str_prefix_app (a b : string) : String.prefix a (a +:+ b) = true.
Proof. apply str_prefix_iff. by exists b. Qed.

Lemma str_prefix_app_l (a b s : string) :
  String.prefix (a +:+ b) s = true -> String.prefix a s = true.
Proof.
  rewrite !str_prefix_iff. intros [c ->]. exists (b +:+ c). apply str_app_assoc.
Qed.

Lemma string_from_app (a b : string) : string_from (String.length a) (a +:+ b) = b.
Proof. induction a as [|x a IH]; [by destruct b|]. apply IH. Qed.

Lemma join_snoc prefix t :
  prefix <> [] -> join (prefix ++ [t]) = join prefix +:+ "." +:+ t.
Proof.
  unfold join. induction prefix as [|x [|y prefix] IH]; intros Hne; [done|done|].
  change (String.concat "." ((x :: y :: prefix) ++ [t]))
    with (x +:+ "." +:+ String.concat "." ((y :: prefix) ++ [t])).
  rewrite IH by done.
  change (String.concat "." (x :: y :: prefix))
    with (x +:+ "." +:+ String.concat "." (y :: prefix)).
  by rewrite !str_app_assoc.
Qed.

(** Below an element whose path is [join prefix], every path starts with
    that path and a dot. *)
Lemma nodes_at_below p e : forall prefix,
  prefix <> [] ->
  String.prefix (join prefix +:+ ".") p = false ->
  nodes_at p prefix e = [].
Proof.
  induction e as [i t x tl a cs IH] using Element_ind. intros prefix Hne Hp.
  rewrite nodes_at_unfold. cbn [tag children].
  rewrite (join_snoc _ _ Hne).
  destruct (String.eqb_spec (join prefix +:+ "." +:+ t) p) as [Heq|_].
  { rewrite <- Heq, <- str_app_assoc, str_prefix_app in Hp. done. }
  simpl. induction IH as [|c cs Hc _ IHcs]; [done|]. simpl.
  rewrite IHcs, app_nil_r. apply Hc; [by destruct prefix|].
  destruct (String.prefix (join (prefix ++ [t]) +:+ ".") p) eqn:Hpre; [|done].
  rewrite (join_snoc _ _ Hne), !str_app_assoc, <- (str_app_assoc _ "." _) in Hpre.
  apply str_prefix_app_l in Hpre. congruence.
Qed.

(** The generic walk misses no element at a path outside [entry.sense.]. *)
Lemma visited_at_nodes_at p e : forall prefix,
  String.prefix "entry.sense." p = false ->
  visited_at p prefix e = nodes_at p prefix e.
Proof.
  induction e as [i t x tl a cs IH] using Element_ind. intros prefix Hp.
  rewrite visited_at_unfold, nodes_at_unfold. cbn [tag children]. f_equal.
  destruct (String.eqb_spec (join (prefix ++ [t])) SENSE_PATH) as [Hs|_].
  - symmetry. induction cs as [|c cs IHcs]; [done|]. simpl.
    apply Forall_cons in IH as [_ IH]. rewrite (IHcs IH), app_nil_r.
    apply nodes_at_below; [by destruct prefix|]. by rewrite Hs.
  - induction IH as [|c cs Hc _ IHcs]; [done|]. simpl. by rewrite Hc, IHcs.
Qed.

(** ** Part-of-speech lists *)

Lemma str_in_elem_of t (l : list string) : str_in t l = true <-> t ∈ l.
Proof.
  unfold str_in. rewrite existsb_exists. split.
  - intros (y & Hy & Heq). apply String.eqb_eq in Heq as ->.
    by apply list_elem_of_In.
  - intros Ht. exists t. split; [by apply list_elem_of_In | apply String.eqb_refl].
Qed.

Lemma add_pos_NoDup field t :
  NoDup (default [] field) -> NoDup (default [] (add_pos field t)).
Proof.
  destruct field as [l|]; simpl; [|intros _; apply NoDup_singleton].
  intros Hl. destruct (str_in t l) eqn:Hin; [done|]. simpl.
  apply NoDup_app. split_and!; [done| |apply NoDup_singleton].
  intros y Hy ->%list_elem_of_singleton.
  apply str_in_elem_of in Hy. congruence.
Qed.

Lemma add_pos_elem_of field t y :
  y ∈ default [] (add_pos field t) <-> y ∈ default [] field \/ y = t.
Proof.
  destruct field as [l|]; simpl.
  - destruct (str_in t l) eqn:Hin; simpl.
    + split; [by left|]. intros [Hy| ->]; [done|]. by apply str_in_elem_of.
    + rewrite elem_of_app, list_elem_of_singleton. done.
  - rewrite list_elem_of_singleton. split; [by right|].
    intros [Hy| ->]; [|done]. by apply elem_of_nil in Hy.
Qed.

Lemma foldl_add_pos_NoDup l : forall field,
  NoDup (default [] field) -> NoDup (default [] (foldl add_pos field l)).
Proof.
  induction l as [|t l IH]; intros field Hf; [done|].
  simpl. by apply IH, add_pos_NoDup.
Qed.

Lemma foldl_add_pos_elem_of l y : forall field,
  y ∈ default [] (foldl add_pos field l) <-> y ∈ default [] field \/ y ∈ l.
Proof.
  induction l as [|t l IH]; intros field; simpl.
  - split; [by left|]. intros [Hy|Hy]; [done|]. by apply elem_of_nil in Hy.
  - rewrite IH, add_pos_elem_of, elem_of_cons. tauto.
Qed.

Lemma foldl_add_pos_same t n l :
  t ∈ l -> foldl add_pos (Some l) (replicate n t) = Some l.
Proof.
  intros Ht. induction n as [|n IH]; [done|]. simpl.
  apply str_in_elem_of in Ht. by rewrite Ht.
Qed.

Lemma elem_of_present t (l : list (option string)) : t ∈ present l <-> Some t ∈ l.
Proof.
  unfold present. rewrite list_elem_of_omap. split.
  - intros (x & Hx & Heq). by simplify_eq/=.
  - intros Ht. by exists (Some t).
Qed.

(** ** A whole entry *)

(** The entry extractor in terms of all the elements of the subtree, and
    started on a fresh [DictEntry] with an empty prefix. *)
Lemma collect_any e output prefix :
  collect e output prefix =
  Ok (entry_extend output (fun p => nodes_at p prefix e), prefix).
Proof.
  rewrite collect_spec. do 2 f_equal.
  apply entry_extend_ext; by apply visited_at_nodes_at.
Qed.

Lemma collect_fresh e : collect e DictEntry_new [] = Ok (extracted_entry e, []).
Proof. apply collect_any. Qed.

(** ** Claims on the extractors *)

(** C2: an element reached at the path [entry.sense] makes the entry
    extractor append exactly one sense record, whatever is nested in it:
    the record is the one the sense extractor builds from a fresh
    [DictSense], its quotes are the texts of the elements of the subtree
    whose dotted path is exactly [entry.sense.cit.quote], its defs the texts
    of those whose path is exactly [entry.sense.sense.def], both in document
    order, so that the defs of nested sub-senses land in this one record.
    The entry returned has, as its senses, the senses it had ([None] read as
    the empty list) followed by that one record, and its other four fields
    are those of the entry received. *)
Theorem sense_element_one_record element output prefix :
  join (prefix ++ [tag element]) = SENSE_PATH ->
  let sense :=
    {| quotes := extend_field None (texts_at QUOTE_PATH prefix element);
       defs := extend_field None (texts_at DEF_PATH prefix element) |} in
  collect_sense element DictSense_new prefix = Ok (sense, prefix) /\
  exists output',
    collect element output prefix = Ok (output', prefix) /\
    senses output' = Some (default [] (senses output) ++ [sense]) /\
    orth output' = orth output /\ pron output' = pron output /\
    gen output' = gen output /\ pos output' = pos output.
Proof.
  intros Hpath sense. split; [apply collect_sense_spec|].
  rewrite collect_unfold. cbv zeta. rewrite Hpath.
  change (String.eqb SENSE_PATH ORTH_PATH) with false.
  change (String.eqb SENSE_PATH PRON_PATH) with false.
  change (String.eqb SENSE_PATH GEN_PATH) with false.
  change (String.eqb SENSE_PATH POS_PATH) with false.
  change (String.eqb SENSE_PATH SENSE_PATH) with true. cbv iota.
  rewrite list_pop_app. cbn [mbind result_bind].
  rewrite collect_sense_spec. fold sense.
  eexists. split; [reflexivity|].
  split; [|by repeat split].
  by destruct (senses output).
Qed.

Lemma sense_element_one_record_witness :
  join (["entry"] ++ [tag cat_sense]) = SENSE_PATH /\
  collect_sense cat_sense DictSense_new ["entry"] =
    Ok ({| quotes := Some [Some "Example."]; defs := Some [Some "A feline."] |},
        ["entry"]) /\
  exists output',
    collect cat_sense DictEntry_new ["entry"] = Ok (output', ["entry"]) /\
    senses output' =
      Some [ {| quotes := Some [Some "Example."];
                defs := Some [Some "A feline."] |} ] /\
    orth output' = None /\ pron output' = None /\
    gen output' = None /\ pos output' = None.
Proof.
  split; [reflexivity|].
  apply (sense_element_one_record cat_sense DictEntry_new ["entry"]).
  reflexivity.
Defined.

(** C3: the entry extractor always returns and restores the prefix; the
    orthography, pronunciation and part-of-speech lists receive only the
    texts that are present of the elements at [entry.form.orth],
    [entry.form.pron] and [entry.gramGrp.pos], so an element without text
    adds nothing there, while the gender list receives the text of every
    element at [entry.gramGrp.gen], absent or not: the [k]-th such element,
    when it has no text, puts [None] at the [k]-th new position of the
    gender list. *)
Theorem collect_empty_text element output prefix :
  exists output',
    collect element output prefix = Ok (output', prefix) /\
    orth output' =
      extend_field (orth output) (present (texts_at ORTH_PATH prefix element)) /\
    pron output' =
      extend_field (pron output) (present (texts_at PRON_PATH prefix element)) /\
    pos output' =
      foldl add_pos (pos output) (present (texts_at POS_PATH prefix element)) /\
    gen output' = extend_field (gen output) (texts_at GEN_PATH prefix element) /\
    forall k n,
      nodes_at GEN_PATH prefix element !! k = Some n ->
      text (snd n) = None ->
      exists gs, gen output' = Some gs /\
                 gs !! (length (default [] (gen output)) + k) = Some None.
Proof.
  eexists. split; [apply collect_any|]. cbn [orth pron gen pos entry_extend].
  split_and!; try reflexivity.
  intros k n Hk Hn.
  assert (Ht : texts (nodes_at GEN_PATH prefix element) !! k = Some None).
  { unfold texts. by rewrite list_lookup_fmap, Hk, <- Hn. }
  destruct (texts (nodes_at GEN_PATH prefix element)) as [|g gs] eqn:Hgs;
    [by rewrite lookup_nil in Ht|].
  eexists. split; [reflexivity|].
  by rewrite lookup_app_r, Nat.add_comm, Nat.add_sub by lia.
Qed.

Lemma collect_empty_text_witness :
  exists output',
    collect empty_fields_entry DictEntry_new [] = Ok (output', []) /\
    orth output' = None /\ pron output' = None /\ pos output' = None /\
    gen output' = Some [None].
Proof.
  destruct (collect_empty_text empty_fields_entry DictEntry_new [])
    as (output' & Hrun & Ho & Hp & Hq & Hg & _).
  exists output'. by split_and!.
Defined.

(** C4: on a fresh [DictEntry] and an empty prefix the entry extractor
    gives a part-of-speech list without duplicates: it is built from the
    texts that are present of the elements at [entry.gramGrp.pos], in
    document order, each added unless it is in the list already; its
    members are exactly those texts; and when all of them are one and the
    same text, the list has that single item. *)
Theorem collect_pos_no_duplicates entry :
  exists output,
    collect entry DictEntry_new [] = Ok (output, []) /\
    pos output = foldl add_pos None (present (texts_at POS_PATH [] entry)) /\
    NoDup (default [] (pos output)) /\
    (forall t, t ∈ default [] (pos output) <-> Some t ∈ texts_at POS_PATH [] entry) /\
    (forall t n, present (texts_at POS_PATH [] entry) = replicate (S n) t ->
                 pos output = Some [t]).
Proof.
  eexists. split; [apply collect_fresh|].
  unfold extracted_entry. cbn [pos entry_extend DictEntry_new].
  split_and!.
  - reflexivity.
  - apply foldl_add_pos_NoDup. simpl. apply NoDup_nil_2.
  - intros t. rewrite foldl_add_pos_elem_of, elem_of_present. simpl.
    split; [intros [Hn|Ht]; [by apply elem_of_nil in Hn | done] | by right].
  - intros t n Hrep. unfold texts_at, texts in *. rewrite Hrep. simpl.
    apply foldl_add_pos_same. by apply list_elem_of_singleton.
Qed.

Lemma collect_pos_no_duplicates_witness :
  exists output,
    collect twice_pos_entry DictEntry_new [] = Ok (output, []) /\
    pos output = Some ["n"].
Proof.
  destruct (collect_pos_no_duplicates twice_pos_entry)
    as (output & Hrun & _ & _ & _ & Hsame).
  exists output. split; [exact Hrun|]. by apply (Hsame "n" 1).
Defined.

(** C10: the sense extractor always returns and appends the text of a
    quote or def element without looking at it: when the [k]-th element at
    [entry.sense.cit.quote] (at [entry.sense.sense.def]) of the subtree has
    no text, the quotes (the defs) of the resulting sense hold [None] at the
    [k]-th new position. *)
Theorem collect_sense_keeps_empty_text element sense prefix :
  exists sense',
    collect_sense element sense prefix = Ok (sense', prefix) /\
    (forall k n,
       nodes_at QUOTE_PATH prefix element !! k = Some n ->
       text (snd n) = None ->
       exists qs, quotes sense' = Some qs /\
                  qs !! (length (default [] (quotes sense)) + k) = Some None) /\
    (forall k n,
       nodes_at DEF_PATH prefix element !! k = Some n ->
       text (snd n) = None ->
       exists ds, defs sense' = Some ds /\
                  ds !! (length (default [] (defs sense)) + k) = Some None).
Proof.
  eexists. split; [apply collect_sense_spec|].
  cbn [quotes defs sense_extend]. unfold texts_at.
  split; intros k n Hk Hn.
  - assert (Ht : (map (fun n => text (snd n)) (nodes_at QUOTE_PATH prefix element))
                   !! k = Some None).
    { change (map ?f ?l) with (f <$> l). by rewrite list_lookup_fmap, Hk, <- Hn. }
    destruct (map _ _) as [|q qs] eqn:Hqs; [by rewrite lookup_nil in Ht|].
    eexists. split; [reflexivity|].
    by rewrite lookup_app_r, Nat.add_comm, Nat.add_sub by lia.
  - assert (Ht : (map (fun n => text (snd n)) (nodes_at DEF_PATH prefix element))
                   !! k = Some None).
    { change (map ?f ?l) with (f <$> l). by rewrite list_lookup_fmap, Hk, <- Hn. }
    destruct (map _ _) as [|q qs] eqn:Hqs; [by rewrite lookup_nil in Ht|].
    eexists. split; [reflexivity|].
    by rewrite lookup_app_r, Nat.add_comm, Nat.add_sub by lia.
Qed.

Lemma collect_sense_keeps_empty_text_witness :
  exists sense',
    collect_sense empty_quote_sense DictSense_new ["entry"] = Ok (sense', ["entry"]) /\
    (exists qs, quotes sense' = Some qs /\ qs !! 0 = Some None) /\
    (exists ds, defs sense' = Some ds /\ ds !! 0 = Some None).
Proof.
  destruct (collect_sense_keeps_empty_text empty_quote_sense DictSense_new ["entry"])
    as (sense' & Hrun & Hq & Hd).
  exists sense'. split; [exact Hrun|]. split.
  - by apply (Hq 0 (["entry"; "sense"; "cit"], elem 2 "quote" None [])).
  - by apply (Hd 0 (["entry"; "sense"; "sense"], elem 4 "def" None [])).
Defined.

(** ** Namespace stripping *)

Lemma remove_namespace_run element err :
  remove_namespace element err =
  (Ok (set_tag element (strip_name (tag element))), err ++ strip_line (tag element)).
Proof.
  unfold remove_namespace, strip_name, strip_line.
  destruct (String.prefix TEI_NS (tag element)).
  - cbn. by rewrite app_nil_r.
  - cbn. by destruct element.
Qed.

Lemma for_all_run {A B} (body : A -> M B) (f : A -> B) (log : A -> list string) l :
  Forall (fun x => forall err, body x err = (Ok (f x), err ++ log x)) l ->
  forall err, for_all body l err = (Ok (map f l), err ++ flat_map log l).
Proof.
  induction 1 as [|x l Hx _ IH]; intros err; cbn.
  - by rewrite app_nil_r.
  - unfold mbind, M_bind. rewrite Hx. cbn. rewrite IH. cbn.
    by rewrite app_assoc.
Qed.

Lemma strip_namespaces_run element : forall err,
  strip_namespaces element err = (Ok (strip_tree element), err ++ strip_log element).
Proof.
  induction element as [i t x tl a cs IH] using Element_ind. intros err.
  cbn [strip_namespaces strip_tree strip_log tag children oid text tail attrib].
  unfold mbind at 1, M_bind at 1. rewrite remove_namespace_run.
  unfold mbind at 1, M_bind at 1.
  rewrite (for_all_run _ strip_tree strip_log cs IH). cbn.
  by rewrite app_assoc.
Qed.

Lemma iter_unfold e : iter e = e :: flat_map iter (children e).
Proof. by destruct e. Qed.

Lemma height_unfold e :
  height e = S (foldr (fun c h => Nat.max (height c) h) 0 (children e)).
Proof. by destruct e. Qed.

Lemma no_tag_children t e : no_tag t e -> Forall (no_tag t) (children e).
Proof.
  unfold no_tag. rewrite iter_unfold. intros [_ H]%Forall_cons.
  induction (children e) as [|c cs IH]; [done|].
  simpl in H. apply Forall_app in H as [Hc Hcs]. constructor; [done|by apply IH].
Qed.

Lemma findall_no_tag t e : Forall (no_tag t) (children e) -> findall t e = [].
Proof.
  unfold findall. intros H.
  induction H as [|c cs Hc _ IH]; [done|]. simpl.
  rewrite filter_app, IH, app_nil_r.
  unfold no_tag in Hc. induction Hc as [|n ns Hn _ IHn]; [done|].
  rewrite filter_cons. by destruct (decide (tag n = t)).
Qed.

Lemma height_children e depth :
  height e <= S depth -> Forall (fun c => height c <= depth) (children e).
Proof.
  rewrite height_unfold. intros H%le_S_n.
  induction (children e) as [|c cs IH]; [done|]. simpl in H.
  constructor; [lia | apply IH; lia].
Qed.

Section NormaliserFacts.

Variable parse : string -> option Element.

(** Without inclusion directives and super entries, [preprocess] does
    what namespace stripping does, to the tree and to [stderr]. *)
Lemma preprocess_run path element : forall depth err,
  height element <= depth ->
  no_tag XINCLUDE element -> no_tag SUPER_ENTRY element ->
  preprocess parse depth element path err =
  (Ok (strip_tree element), err ++ strip_log element).
Proof.
  induction element as [i t x tl a cs IH] using Element_ind.
  intros depth err Hh Hx Hs.
  destruct depth as [|depth]; [rewrite height_unfold in Hh; lia|].
  pose proof (height_children _ _ Hh) as Hhs.
  pose proof (no_tag_children _ _ Hx) as Hxs.
  pose proof (no_tag_children _ _ Hs) as Hss.
  cbn [children] in Hhs, Hxs, Hss.
  cbn [preprocess]. unfold mbind at 1, M_bind at 1.
  rewrite remove_namespace_run. cbn [tag].
  set (e' := set_tag _ _).
  assert (Hguard : forall t' (m : M Element) err',
    Forall (no_tag t') cs ->
    (if String.eqb (tag e') "body" then
       if 0 <? length (findall t' e') then m else mret e'
     else mret e') err' = (Ok e', err')).
  { intros t' m err' Hn. rewrite (findall_no_tag t' e') by done.
    by destruct (String.eqb _ _). }
  unfold mbind at 1, M_bind at 1. rewrite Hguard by done.
  unfold mbind at 1, M_bind at 1. rewrite Hguard by done.
  unfold mbind at 1, M_bind at 1.
  rewrite (for_all_run _ strip_tree strip_log).
  - cbn. by rewrite app_assoc.
  - cbn [children e' set_tag].
    rewrite Forall_forall in IH, Hhs, Hxs, Hss. apply Forall_forall.
    intros c Hc err'. apply IH; auto.
Qed.

End NormaliserFacts.

(** ** Stripping twice *)

Lemma has_brace_prefix s p :
  has_brace s = false -> String.prefix (String "{"%char p) s = false.
Proof.
  destruct s as [|c s]; [done|]. cbn [has_brace String.prefix].
  intros H. destruct (Ascii.ascii_dec "{"%char c) as [<-|]; [|done].
  by rewrite Ascii.eqb_refl in H.
Qed.

Lemma local_name_tei b : local_name (TEI_NS +:+ b) = b.
Proof. reflexivity. Qed.

Lemma strip_name_tei b : strip_name (TEI_NS +:+ b) = b.
Proof.
  unfold strip_name. rewrite str_prefix_app. apply string_from_app.
Qed.

(** A stripped tag of a parsed tree is stripped for good, and is neither
    an inclusion directive nor a super entry unless the tag was one. *)
Lemma strip_name_settled t :
  parsed_tag t = true -> t <> XINCLUDE -> t <> SUPER_ENTRY ->
  String.prefix TEI_NS (strip_name t) = false /\
  strip_name t <> XINCLUDE /\ strip_name t <> SUPER_ENTRY.
Proof.
  intros Hp Hx Hs. destruct (String.prefix TEI_NS t) eqn:Ht.
  - apply str_prefix_iff in Ht as [b ->]. rewrite strip_name_tei.
    unfold parsed_tag in Hp. rewrite local_name_tei in Hp.
    apply negb_true_iff in Hp. split_and!.
    + by apply has_brace_prefix.
    + intros ->. discriminate Hp.
    + intros ->. discriminate Hp.
  - unfold strip_name. by rewrite Ht.
Qed.

Lemma iter_strip_tree (P : string -> Prop) e :
  Forall (fun n => P (strip_name (tag n))) (iter e) ->
  Forall (fun n => P (tag n)) (iter (strip_tree e)).
Proof.
  induction e as [i t x tl a cs IH] using Element_ind.
  cbn [strip_tree iter tag children oid text tail attrib].
  intros [Ht Hcs]%Forall_cons. constructor; [done|].
  induction IH as [|c cs Hc _ IHcs]; [done|]. simpl in *.
  apply Forall_app in Hcs as [H1 H2]. apply Forall_app. split; auto.
Qed.

Lemma height_strip_tree e : height (strip_tree e) = height e.
Proof.
  induction e as [i t x tl a cs IH] using Element_ind.
  cbn [strip_tree height children]. f_equal.
  induction IH as [|c cs Hc _ IHcs]; [done|]. simpl. by rewrite Hc, IHcs.
Qed.

Lemma strip_tree_stripped e :
  Forall (fun n => String.prefix TEI_NS (tag n) = false) (iter e) ->
  strip_tree e = e.
Proof.
  induction e as [i t x tl a cs IH] using Element_ind.
  cbn [strip_tree iter tag children oid text tail attrib].
  intros [Ht Hcs]%Forall_cons. cbn [tag] in Ht. unfold strip_name. rewrite Ht.
  f_equal.
  induction IH as [|c cs Hc _ IHcs]; [done|]. simpl in *.
  apply Forall_app in Hcs as [H1 H2]. by rewrite Hc, IHcs.
Qed.

(** ** Claims on namespace stripping *)

(** C7: on a tree whose tags are as the parser writes them and that holds
    no inclusion directive and no super entry, [preprocess] (given enough
    depth for the tree) does exactly what namespace stripping alone does, to
    the tree and to [stderr]; and run again on its own result it returns
    that same tree. *)
Theorem preprocess_strips_only parse path element depth err :
  parsed_tree element ->
  no_tag XINCLUDE element -> no_tag SUPER_ENTRY element ->
  height element <= depth ->
  preprocess parse depth element path err = strip_namespaces element err /\
  exists once err1 err2,
    preprocess parse depth element path err = (Ok once, err1) /\
    preprocess parse depth once path err1 = (Ok once, err2).
Proof.
  intros Hp Hx Hs Hh.
  rewrite (preprocess_run parse path element depth err Hh Hx Hs).
  split; [by rewrite strip_namespaces_run|].
  exists (strip_tree element), (err ++ strip_log element). eexists.
  split; [done|].
  assert (Hall : Forall (fun n =>
            String.prefix TEI_NS (strip_name (tag n)) = false /\
            strip_name (tag n) <> XINCLUDE /\
            strip_name (tag n) <> SUPER_ENTRY) (iter element)).
  { unfold parsed_tree, no_tag in *. rewrite Forall_forall in Hp, Hx, Hs.
    apply Forall_forall. intros n Hn. apply strip_name_settled; auto. }
  rewrite preprocess_run.
  - rewrite strip_tree_stripped; [done|].
    apply (iter_strip_tree (fun t => String.prefix TEI_NS t = false)).
    eapply Forall_impl; [exact Hall|]. by intros n (? & _).
  - by rewrite height_strip_tree.
  - apply (iter_strip_tree (fun t => t <> XINCLUDE)).
    eapply Forall_impl; [exact Hall|]. by intros n (_ & ? & _).
  - apply (iter_strip_tree (fun t => t <> SUPER_ENTRY)).
    eapply Forall_impl; [exact Hall|]. by intros n (_ & _ & ?).
Qed.

Lemma preprocess_strips_only_witness :
  preprocess no_files 4 tei_body "temp/eng-deu" [] = strip_namespaces tei_body [] /\
  exists once err1 err2,
    preprocess no_files 4 tei_body "temp/eng-deu" [] = (Ok once, err1) /\
    preprocess no_files 4 once "temp/eng-deu" err1 = (Ok once, err2).
Proof.
  apply (preprocess_strips_only no_files "temp/eng-deu" tei_body 4 []).
  - unfold parsed_tree. simpl. repeat constructor.
  - unfold no_tag. simpl. repeat constructor; discriminate.
  - unfold no_tag. simpl. repeat constructor; discriminate.
  - simpl. lia.
Defined.

(** *** What [preprocess] does to [stderr] and to the tag *)

Lemma appends_only_ret {A} (a : A) : appends_only (mret a).
Proof. intros err. exists []. cbn. by rewrite app_nil_r. Qed.

Lemma appends_only_lift {A} (r : result A) : appends_only (lift r).
Proof. intros err. exists []. cbn. by rewrite app_nil_r. Qed.

Lemma appends_only_write s : appends_only (stderr_write s).
Proof. intros err. by exists [s]. Qed.

Lemma appends_only_bind {A B} (m : M A) (k : A -> M B) :
  appends_only m -> (forall a, appends_only (k a)) -> appends_only (m ≫= k).
Proof.
  intros Hm Hk err. unfold mbind, M_bind.
  destruct (Hm err) as [l1 H1]. destruct (m err) as [[a|e] err1].
  - cbn in H1. subst err1. destruct (Hk a (err ++ l1)) as [l2 H2].
    exists (l1 ++ l2). by rewrite H2, app_assoc.
  - by exists l1.
Qed.

Lemma appends_only_for_all {A B} (body : A -> M B) l :
  (forall x, appends_only (body x)) -> appends_only (for_all body l).
Proof.
  intros Hbody. induction l as [|x l IH]; cbn.
  - apply appends_only_ret.
  - apply appends_only_bind; [done|]. intros y.
    apply appends_only_bind; [done|]. intros ys. apply appends_only_ret.
Qed.

Lemma appends_only_guard (c1 c2 : bool) (m : M Element) e :
  appends_only m ->
  appends_only (if c1 then if c2 then m else mret e else mret e).
Proof. intros Hm. destruct c1, c2; auto using @appends_only_ret. Qed.

Lemma preprocess_appends_only parse path depth : forall element,
  appends_only (preprocess parse depth element path).
Proof.
  induction depth as [|depth IH]; intros element; cbn [preprocess].
  - apply appends_only_lift.
  - apply appends_only_bind.
    { unfold remove_namespace. destruct (String.prefix _ _).
      - apply appends_only_ret.
      - apply appends_only_bind; [apply appends_only_write|].
        intros _. apply appends_only_ret. }
    intros e1. apply appends_only_bind.
    { apply appends_only_guard, appends_only_lift. }
    intros e2. apply appends_only_bind.
    { apply appends_only_guard, appends_only_lift. }
    intros e3. apply appends_only_bind.
    { by apply appends_only_for_all. }
    intros cs. apply appends_only_ret.
Qed.

Lemma handle_includes_tag parse parent path body :
  handle_includes parse parent path = Ok body -> tag body = tag parent.
Proof.
  unfold handle_includes.
  destruct (for_each _ _ _) as [entries|e]; cbn; [|done].
  by intros [= <-].
Qed.

Lemma Element_remove_tag parent sub body :
  Element_remove parent sub = Ok body -> tag body = tag parent.
Proof.
  unfold Element_remove. destruct (remove_first _ _); [|done].
  by intros [= <-].
Qed.

Lemma foldl_Element_append_tag l : forall parent,
  tag (foldl Element_append parent l) = tag parent.
Proof.
  induction l as [|x l IH]; intros parent; [done|].
  cbn [foldl]. by rewrite IH.
Qed.

Lemma handle_super_entries_tag parent body :
  handle_super_entries parent = Ok body -> tag body = tag parent.
Proof.
  unfold handle_super_entries. generalize (findall SUPER_ENTRY parent).
  intros supers. revert parent.
  induction supers as [|super supers IH]; intros parent.
  - by intros [= <-].
  - rewrite for_each_cons.
    destruct (Element_remove _ _) as [p1|e] eqn:Hrm; cbn; [|done].
    intros Hrest. rewrite (IH _ Hrest).
    apply Element_remove_tag in Hrm. rewrite Hrm.
    apply foldl_Element_append_tag.
Qed.

Lemma guard_tag (c1 c2 : bool) (r : result Element) e err e' err' :
  (forall body, r = Ok body -> tag body = tag e) ->
  (if c1 then if c2 then lift r else mret e else mret e) err = (Ok e', err') ->
  tag e' = tag e.
Proof.
  intros Hr. destruct c1, c2; cbn; try by intros [= <- _].
  unfold lift. intros [= Hok _]. by apply Hr.
Qed.

(** An element that [preprocess] returns has the tag of the element it
    was given, without the TEI namespace. *)
Lemma preprocess_tag parse path depth element err element' err' :
  preprocess parse (S depth) element path err = (Ok element', err') ->
  tag element' = strip_name (tag element).
Proof.
  cbn [preprocess]. unfold mbind at 1, M_bind at 1.
  rewrite remove_namespace_run.
  set (e1 := set_tag _ _). set (err1 := err ++ _).
  unfold mbind at 1, M_bind at 1.
  match goal with |- (let (_, _) := ?m in _) = _ -> _ =>
    destruct m as [[e2|x] err2] eqn:H2; [|done] end.
  apply guard_tag in H2; [|apply handle_includes_tag].
  unfold mbind at 1, M_bind at 1.
  match goal with |- (let (_, _) := ?m in _) = _ -> _ =>
    destruct m as [[e3|x] err3] eqn:H3; [|done] end.
  apply guard_tag in H3; [|apply handle_super_entries_tag].
  unfold mbind at 1, M_bind at 1.
  match goal with |- (let (_, _) := ?m in _) = _ -> _ =>
    destruct m as [[cs|x] err4]; [|done] end.
  intros [= <- _]. cbn. by rewrite H3, H2.
Qed.

(** C8, as the code has it: whenever [remove_namespace] is applied to an
    element whose tag does not start with the TEI namespace, be the tag a
    bare name or not, it writes one [ERROR] line with the tag to [stderr],
    raises nothing and returns the element as it was.  [preprocess]
    applies it to the element it is given before anything else: the line
    is written whatever happens afterwards, other lines are only added
    after it, and an element that [preprocess] returns has the tag it had.
    The walk goes on: for a tag other than [body] the children are
    processed next, with the line on [stderr], and the element is returned
    with the children so obtained. *)
Theorem remove_namespace_foreign_tag element err :
  String.prefix TEI_NS (tag element) = false ->
  remove_namespace element err =
    (Ok element, err ++ ["ERROR: " +:+ tag element +:+ newline]) /\
  forall parse path depth,
    (exists r lines,
       preprocess parse (S depth) element path err =
         (r, err ++ ["ERROR: " +:+ tag element +:+ newline] ++ lines) /\
       forall element', r = Ok element' -> tag element' = tag element) /\
    (tag element <> "body" ->
     preprocess parse (S depth) element path err =
     (cs ← for_all (fun child => preprocess parse depth child path)
                   (children element);
      mret (set_children element cs))
       (err ++ ["ERROR: " +:+ tag element +:+ newline])).
Proof.
  intros Ht.
  assert (Hrun : remove_namespace element err =
                 (Ok element, err ++ ["ERROR: " +:+ tag element +:+ newline])).
  { rewrite remove_namespace_run. unfold strip_name, strip_line. rewrite Ht.
    by destruct element. }
  split; [done|]. intros parse path depth. split.
  - destruct (preprocess parse (S depth) element path err) as [r err'] eqn:Hpre.
    assert (Hgrow : exists lines,
              err' = (err ++ ["ERROR: " +:+ tag element +:+ newline]) ++ lines).
    { revert Hpre. cbn [preprocess].
      unfold mbind at 1, M_bind at 1. rewrite Hrun. intros Hpre.
      match type of Hpre with ?k _ = _ =>
        assert (Hk : appends_only k) end.
      { apply appends_only_bind; [apply appends_only_guard, appends_only_lift|].
        intros e2. apply appends_only_bind;
          [apply appends_only_guard, appends_only_lift|].
        intros e3. apply appends_only_bind.
        { apply appends_only_for_all. intros c.
          apply preprocess_appends_only. }
        intros cs. apply appends_only_ret. }
      destruct (Hk (err ++ ["ERROR: " +:+ tag element +:+ newline]))
        as [lines Hlines].
      exists lines. by rewrite Hpre in Hlines. }
    destruct Hgrow as [lines ->]. exists r, lines.
    split; [by rewrite <- app_assoc|].
    intros element' ->. apply preprocess_tag in Hpre.
    rewrite Hpre. unfold strip_name. by rewrite Ht.
  - intros Hbody. cbn [preprocess].
    unfold mbind at 1, M_bind at 1. rewrite Hrun.
    apply String.eqb_neq in Hbody.
    unfold mbind at 1, M_bind at 1. rewrite Hbody. cbn [mret M_ret].
    unfold mbind at 1, M_bind at 1. rewrite Hbody. by cbn [mret M_ret].
Qed.

Lemma remove_namespace_foreign_tag_witness :
  remove_namespace bare_entry [] = (Ok bare_entry, ["ERROR: entry" +:+ newline]) /\
  exists r lines,
    preprocess no_files 1 bare_entry "temp" [] =
      (r, [] ++ ["ERROR: entry" +:+ newline] ++ lines) /\
    forall element', r = Ok element' -> tag element' = "entry".
Proof.
  destruct (remove_namespace_foreign_tag bare_entry [] eq_refl) as [Hrun Hpre].
  split; [exact Hrun|].
  apply (Hpre no_files "temp" 0).
Defined.

(** An element that inclusion resolution drops is never given to
    [remove_namespace]: neither the directive nor the note, both outside
    the TEI namespace, gets a line on [stderr]. *)
Example preprocess_dropped_child_unreported :
  preprocess nested_files 2 include_note_body "temp" [] =
  (Ok (elem 0 "body" None [ elem 21 "entry" None [] ]), []).
Proof. reflexivity. Qed.

(** C8 as stated fails on a bare name: the tag [entry] does not carry the
    TEI namespace and is bare, and the error line is written all the same,
    so the error is not reported only for tags that are not bare. *)
Lemma remove_namespace_bare_tag_reported :
  String.prefix TEI_NS (tag bare_entry) = false /\
  is_bare (tag bare_entry) = true /\
  remove_namespace bare_entry [] = (Ok bare_entry, ["ERROR: entry" +:+ newline]) /\
  ~ (snd (remove_namespace bare_entry []) <> [] <-> is_bare (tag bare_entry) = false).
Proof.
  split_and!; try reflexivity.
  intros [H _]. by discriminate H.
Defined.

(** ** Inclusion resolution *)

Lemma foldl_snoc {A} (l entries : list A) :
  foldl (fun entries entry => entries ++ [entry]) entries l = entries ++ l.
Proof.
  revert entries. induction l as [|x l IH]; intros entries; simpl.
  - by rewrite app_nil_r.
  - by rewrite IH, <- app_assoc.
Qed.

Section Inclusion.

Variable parse : string -> option Element.
Variable path : string.

Lemma handle_includes_unfold parent :
  handle_includes parse parent path =
  entries ← for_each (include_step parse path) (children parent) [];
  Ok (Element_extend (Element_clear parent) entries).
Proof. reflexivity. Qed.

Lemma include_step_skip c entries :
  tag c <> XINCLUDE -> include_step parse path c entries = Ok entries.
Proof.
  intros Hc%String.eqb_neq. unfold include_step. by rewrite Hc.
Qed.

Lemma include_step_other l entries :
  Forall (fun c => tag c <> XINCLUDE) l ->
  for_each (include_step parse path) l entries = Ok entries.
Proof.
  induction 1 as [|c l Hc _ IH]; [done|]. rewrite for_each_cons.
  by rewrite include_step_skip.
Qed.

Lemma include_step_directive d href root entries :
  tag d = XINCLUDE -> attrib d !! "href" = Some href ->
  parse (path +:+ "/" +:+ href) = Some root ->
  include_step parse path d entries = Ok (entries ++ children root).
Proof.
  intros Ht Hh Hp. unfold include_step.
  by rewrite Ht, String.eqb_refl, Hh, Hp, foldl_snoc.
Qed.

(** The child list that two directives leave. *)
Lemma handle_includes_two parent before between after d1 d2 hrefA hrefB rootA rootB :
  children parent = before ++ d1 :: between ++ d2 :: after ->
  Forall (fun c => tag c <> XINCLUDE) (before ++ between ++ after) ->
  tag d1 = XINCLUDE -> attrib d1 !! "href" = Some hrefA ->
  parse (path +:+ "/" +:+ hrefA) = Some rootA ->
  tag d2 = XINCLUDE -> attrib d2 !! "href" = Some hrefB ->
  parse (path +:+ "/" +:+ hrefB) = Some rootB ->
  handle_includes parse parent path =
  Ok (mkElement (oid parent) (tag parent) None None ∅
                (children rootA ++ children rootB)).
Proof.
  intros Hcs Hother Ht1 Hh1 Hp1 Ht2 Hh2 Hp2.
  apply Forall_app in Hother as [Hb Hother].
  apply Forall_app in Hother as [Hm Ha].
  rewrite handle_includes_unfold, Hcs.
  rewrite for_each_app, (include_step_other before) by done.
  cbn [mbind result_bind]. rewrite for_each_cons.
  rewrite (include_step_directive d1 hrefA rootA) by done.
  cbn [mbind result_bind].
  rewrite for_each_app, (include_step_other between) by done.
  cbn [mbind result_bind]. rewrite for_each_cons.
  rewrite (include_step_directive d2 hrefB rootB) by done.
  cbn [mbind result_bind].
  rewrite (include_step_other after) by done.
  cbn [mbind result_bind]. reflexivity.
Qed.

End Inclusion.

(** A child tagged [t] makes the guard of [preprocess] for [t] fire. *)
Lemma findall_child t parent c :
  c ∈ children parent -> tag c = t ->
  (0 <? length (findall t parent)) = true.
Proof.
  intros Hc Ht. apply Nat.ltb_lt, Nat.neq_0_lt_0. intros Hlen.
  apply nil_length_inv in Hlen.
  assert (Hin : c ∈ findall t parent).
  { unfold findall. apply list_elem_of_filter. split; [done|].
    apply list_elem_of_In, in_flat_map. exists c.
    split; [by apply list_elem_of_In|]. rewrite iter_unfold. by left. }
  rewrite Hlen in Hin. by apply elem_of_nil in Hin.
Qed.

(** ** Claims on inclusion resolution *)

(** C5: a body whose children include two inclusion directives, naming
    the files A and B in that order (its other children are no directives),
    passes the guard of [preprocess]; [handle_includes] returns, and the
    children of the body are then exactly the children of A's root followed
    by the children of B's root.  The body is cleared before they are put
    in, so no inclusion directive of the body remains among its children:
    the elements read from the files being new objects, no former child of
    the body, directive or not, is among the new children.  What the files
    hold is spliced in as it is: a child of the result is a directive
    exactly when it is a directive at the top level of A's or of B's root. *)
Theorem handle_includes_two_files
    parse path parent before between after d1 d2 hrefA hrefB rootA rootB :
  children parent = before ++ d1 :: between ++ d2 :: after ->
  Forall (fun c => tag c <> XINCLUDE) (before ++ between ++ after) ->
  tag d1 = XINCLUDE -> attrib d1 !! "href" = Some hrefA ->
  parse (path +:+ "/" +:+ hrefA) = Some rootA ->
  tag d2 = XINCLUDE -> attrib d2 !! "href" = Some hrefB ->
  parse (path +:+ "/" +:+ hrefB) = Some rootB ->
  exists body,
    (0 <? length (findall XINCLUDE parent)) = true /\
    handle_includes parse parent path = Ok body /\
    oid body = oid parent /\ tag body = tag parent /\
    children body = children rootA ++ children rootB /\
    (Forall (fun c => oid c ∉ (oid <$> children parent))
            (children rootA ++ children rootB) ->
     Forall (fun d => oid d ∉ (oid <$> children body)) (children parent) /\
     (oid d1 ∉ (oid <$> children body)) /\
     (oid d2 ∉ (oid <$> children body))) /\
    (forall c, c ∈ children body /\ tag c = XINCLUDE <->
               (c ∈ children rootA \/ c ∈ children rootB) /\ tag c = XINCLUDE) /\
    (Forall (fun c => tag c <> XINCLUDE) (children rootA ++ children rootB) ->
     Forall (fun c => tag c <> XINCLUDE) (children body)).
Proof.
  intros Hcs Hother Ht1 Hh1 Hp1 Ht2 Hh2 Hp2.
  eexists. split; [by apply (findall_child XINCLUDE parent d1); [rewrite Hcs; set_solver|]|].
  split.
  { by apply (handle_includes_two parse path parent before between after
                d1 d2 hrefA hrefB rootA rootB). }
  cbn [children oid tag]. split_and!; [done|done|done| | |done].
  - intros Hfresh.
    assert (Hgone : Forall (fun d => oid d ∉ (oid <$> (children rootA ++ children rootB)))
                      (children parent)).
    { apply Forall_forall. intros d Hd (c & Hoid & Hc)%list_elem_of_fmap.
      rewrite Forall_forall in Hfresh. apply (Hfresh c Hc).
      apply list_elem_of_fmap. by exists d. }
    split; [done|]. rewrite Forall_forall in Hgone.
    split; apply Hgone; rewrite Hcs; set_solver.
  - intros c. by rewrite elem_of_app.
Qed.

Lemma handle_includes_two_files_witness :
  exists body,
    handle_includes nested_files two_includes_body "temp" = Ok body /\
    children body = children file_a ++ children file_b /\
    (oid (include 1 "a.tei") ∉ (oid <$> children body)) /\
    (oid (include 2 "b.tei") ∉ (oid <$> children body)).
Proof.
  destruct (handle_includes_two_files nested_files "temp" two_includes_body
              [] [] [] (include 1 "a.tei") (include 2 "b.tei")
              "a.tei" "b.tei" file_a file_b)
    as (body & _ & Hrun & _ & _ & Hcs & Hgone & _); try reflexivity.
  - constructor.
  - exists body. split; [done|]. split; [done|]. apply Hgone.
    apply (bool_decide_unpack _). reflexivity.
Defined.

(** What the files hold is not resolved further: the body of two
    directives, the first naming a file whose root has the child
    [<xi:include href="c.tei"/>], ends up with that directive of the file
    as its first child. *)
Lemma handle_includes_directive_remains :
  exists body,
    handle_includes nested_files two_includes_body "temp" = Ok body /\
    children body = children file_a ++ children file_b /\
    children body !! 0 = Some (include 11 "c.tei") /\
    ~ Forall (fun c => tag c <> XINCLUDE) (children body).
Proof.
  eexists. split; [reflexivity|]. split_and!; try reflexivity.
  intros [H _]%Forall_cons. by apply H.
Defined.

(** ** Super entries *)

Lemma foldl_Element_append parent l :
  foldl Element_append parent l = set_children parent (children parent ++ l).
Proof.
  revert parent. induction l as [|x l IH]; intros parent; simpl.
  - rewrite app_nil_r. by destruct parent.
  - rewrite IH. unfold Element_append, set_children. simpl.
    by rewrite <- app_assoc.
Qed.

Lemma remove_first_middle sub before after :
  Forall (fun c => oid c <> oid sub) before ->
  remove_first sub (before ++ sub :: after) = Some (before ++ after).
Proof.
  induction 1 as [|c before Hc _ IH]; simpl.
  - by rewrite Nat.eqb_refl.
  - apply Nat.eqb_neq in Hc. by rewrite Hc, IH.
Qed.

Lemma filter_iter_no_tag t l :
  Forall (no_tag t) l -> filter (fun e => tag e = t) (flat_map iter l) = [].
Proof.
  induction 1 as [|c cs Hc _ IH]; [done|]. simpl.
  rewrite filter_app, IH, app_nil_r.
  unfold no_tag in Hc. induction Hc as [|n ns Hn _ IHn]; [done|].
  rewrite filter_cons. by destruct (decide (tag n = t)).
Qed.

(** The only super entry of a body, found among its children. *)
Lemma findall_one_child t parent before sub after :
  children parent = before ++ sub :: after ->
  tag sub = t ->
  Forall (no_tag t) (before ++ after ++ children sub) ->
  findall t parent = [sub].
Proof.
  intros Hcs Ht Hno.
  apply Forall_app in Hno as [Hb Hno]. apply Forall_app in Hno as [Ha Hs].
  unfold findall. rewrite Hcs, flat_map_app, filter_app. simpl.
  rewrite filter_app, (filter_iter_no_tag t before), (filter_iter_no_tag t after) by done.
  rewrite iter_unfold, filter_cons, decide_True by done.
  by rewrite (filter_iter_no_tag t (children sub)).
Qed.

(** Flattening a body with a single super entry among its children. *)
Lemma handle_super_entries_one parent before super after :
  children parent = before ++ super :: after ->
  tag super = SUPER_ENTRY ->
  Forall (no_tag SUPER_ENTRY) (before ++ after ++ children super) ->
  NoDup (oid <$> children parent) ->
  handle_super_entries parent =
  Ok (set_children parent (before ++ after ++ children super)).
Proof.
  intros Hcs Ht Hno Hid. unfold handle_super_entries.
  rewrite (findall_one_child _ parent before super after) by done.
  rewrite for_each_cons, foldl_Element_append. unfold Element_remove.
  cbn [children set_children]. rewrite Hcs, <- app_assoc. cbn [app].
  rewrite remove_first_middle.
  - by cbn.
  - rewrite Hcs, fmap_app, fmap_cons in Hid.
    apply NoDup_app in Hid as (_ & Hdis & _).
    apply Forall_forall. intros c Hc Heq.
    apply (Hdis (oid c)); [by apply list_elem_of_fmap_2|].
    rewrite Heq. by left.
Qed.

(** ** Claim on super entries *)

(** A body that has among its children one super entry with the two
    children [e1] and [e2], and no other super entry anywhere, is flattened
    without an exception: the super entry is gone from the child list, [e1]
    and [e2] stand at its end, after all the other children in their order,
    and no descendant of the body is a super entry any more.  The guard of
    [preprocess] lets the flattening run. *)
Theorem handle_super_entries_two_entries parent before super after e1 e2 :
  children parent = before ++ super :: after ->
  tag super = SUPER_ENTRY ->
  children super = [e1; e2] ->
  Forall (no_tag SUPER_ENTRY) (before ++ after ++ [e1; e2]) ->
  NoDup (oid <$> children parent) ->
  exists body,
    (0 <? length (findall SUPER_ENTRY parent)) = true /\
    handle_super_entries parent = Ok body /\
    children body = before ++ after ++ [e1; e2] /\
    findall SUPER_ENTRY body = [].
Proof.
  intros Hcs Ht Hkids Hno Hid. rewrite <- Hkids in Hno.
  eexists. split_and!.
  - by rewrite (findall_one_child _ parent before super after).
  - by apply (handle_super_entries_one parent before super after).
  - cbn [children set_children]. by rewrite Hkids.
  - apply findall_no_tag. cbn [children set_children]. done.
Qed.

Lemma handle_super_entries_two_entries_witness :
  exists body,
    (0 <? length (findall SUPER_ENTRY super_body)) = true /\
    handle_super_entries super_body = Ok body /\
    children body =
      [ elem 1 "{http://www.tei-c.org/ns/1.0}entry" None [];
        elem 5 "{http://www.tei-c.org/ns/1.0}entry" None [] ] ++
      [ elem 3 "{http://www.tei-c.org/ns/1.0}entry" (Some "first") [];
        elem 4 "{http://www.tei-c.org/ns/1.0}entry" (Some "second") [] ] /\
    findall SUPER_ENTRY body = [].
Proof.
  apply (handle_super_entries_two_entries super_body
           [ elem 1 "{http://www.tei-c.org/ns/1.0}entry" None [] ]
           (elem 2 SUPER_ENTRY None
              [ elem 3 "{http://www.tei-c.org/ns/1.0}entry" (Some "first") [];
                elem 4 "{http://www.tei-c.org/ns/1.0}entry" (Some "second") [] ])
           [ elem 5 "{http://www.tei-c.org/ns/1.0}entry" None [] ]).
  - reflexivity.
  - reflexivity.
  - reflexivity.
  - unfold no_tag. simpl. repeat constructor; discriminate.
  - apply (bool_decide_unpack _). reflexivity.
Defined.

(** A super entry inside a super entry among the children is flattened
    as well: it has become a child of the body when its turn comes. *)
Example handle_super_entries_nested :
  handle_super_entries nested_super_body =
  Ok (elem 0 "body" None
        [ elem 1 "p" None []; elem 6 "q" None [];
          elem 3 "e1" None []; elem 5 "e3" None [] ]).
Proof. reflexivity. Qed.

(** A super entry that is not a child of the body is found by [findall]
    but cannot be removed from the body: the flattening raises. *)
Example handle_super_entries_deep :
  handle_super_entries deep_super_body = Raise ValueError.
Proof. reflexivity. Qed.

(** C6: on the body [<body><div><superEntry><entry/><entry/></superEntry>
    </div></body>], which contains one super entry with two child entries,
    the flattening does not put the two entries among the children of the
    body and leave no super entry: the super entry is found by the search
    through all descendants, its entries are appended, and the removal,
    which looks among the children of the body only, raises [ValueError].
    [preprocess] passes the exception on for the body as the parser gives
    it, whatever the files, the base path, the depth allowed and the lines
    already written; nothing is written for it. *)
Theorem handle_super_entries_in_div_raises :
  findall SUPER_ENTRY deep_super_body =
    [ elem 2 SUPER_ENTRY None
        [ elem 3 "{http://www.tei-c.org/ns/1.0}entry" None [];
          elem 4 "{http://www.tei-c.org/ns/1.0}entry" None [] ] ] /\
  Forall (fun c => tag c <> SUPER_ENTRY) (children deep_super_body) /\
  handle_super_entries deep_super_body = Raise ValueError /\
  forall parse path depth err,
    preprocess parse (S depth) deep_super_tei_body path err =
    (Raise ValueError, err).
Proof.
  split; [reflexivity|]. split; [by repeat constructor|].
  split; [reflexivity|]. intros parse path depth err. reflexivity.
Qed.

(** ** The headword index *)

Lemma merge_step_lookup entry entries o k :
  merge_step entry entries o !! k =
  if decide (o = k) then append_field (entries !! k) entry else entries !! k.
Proof.
  unfold merge_step. destruct (decide (o = k)) as [->|Hne].
  - destruct (entries !! k); simpl; by rewrite lookup_insert_eq.
  - destruct (entries !! o); by rewrite lookup_insert_ne.
Qed.

Lemma merge_steps_lookup entry l k : forall entries,
  foldl (merge_step entry) entries l !! k =
  extend_field (entries !! k) (replicate (length (filter (fun o => o = k) l)) entry).
Proof.
  induction l as [|o l IH]; intros entries; [done|]. simpl.
  rewrite IH, merge_step_lookup, filter_cons.
  destruct (decide (o = k)) as [->|Hne]; [|done].
  by rewrite append_field_extend, extend_field_app.
Qed.

Lemma merge_entry_lookup entries entry k :
  merge_entry entries entry !! k =
  extend_field (entries !! k) (replicate (declared k entry) entry).
Proof.
  unfold merge_entry, declared. destruct (orth entry) as [l|]; [|done].
  apply (merge_steps_lookup entry l k).
Qed.

Lemma foldl_merge_entry_lookup extracted k : forall entries,
  foldl merge_entry entries extracted !! k =
  extend_field (entries !! k) (bucket k extracted).
Proof.
  induction extracted as [|entry extracted IH]; intros entries; [done|]. simpl.
  by rewrite IH, merge_entry_lookup, extend_field_app.
Qed.

(** Every bucket of the index, key by key. *)
Lemma aggregate_lookup extracted k :
  aggregate extracted !! k = extend_field None (bucket k extracted).
Proof.
  unfold aggregate. by rewrite foldl_merge_entry_lookup, lookup_empty.
Qed.

Lemma elem_of_bucket k extracted entry :
  entry ∈ bucket k extracted <->
  entry ∈ extracted /\ exists l, orth entry = Some l /\ k ∈ l.
Proof.
  unfold bucket. rewrite list_elem_of_In, in_flat_map. split.
  - intros (e & He & Hin). apply list_elem_of_In in He, Hin.
    apply elem_of_replicate in Hin as [-> Hn]. split; [done|].
    unfold declared in Hn. destruct (orth e) as [l|]; [|done].
    exists l. split; [done|]. simpl in Hn.
    destruct (filter (fun o => o = k) l) as [|o os] eqn:Hf; [done|].
    assert (Ho : o ∈ filter (fun o => o = k) l) by (rewrite Hf; left).
    by apply list_elem_of_filter in Ho as [-> Ho].
  - intros (He & l & Hl & Hk). exists entry. split; [by apply list_elem_of_In|].
    apply list_elem_of_In, elem_of_replicate. split; [done|].
    unfold declared. rewrite Hl. simpl.
    assert (Hf : k ∈ filter (fun o => o = k) l) by by apply list_elem_of_filter.
    intros Hlen. apply nil_length_inv in Hlen. rewrite Hlen in Hf.
    by apply elem_of_nil in Hf.
Qed.

Lemma bucket_app k l1 l2 : bucket k (l1 ++ l2) = bucket k l1 ++ bucket k l2.
Proof. apply flat_map_app. Qed.

Lemma bucket_cons k entry l : bucket k (entry :: l) = bucket k [entry] ++ bucket k l.
Proof. apply (bucket_app k [entry] l). Qed.

Lemma bucket_declaring k entry l :
  orth entry = Some l -> k ∈ l ->
  exists n, bucket k [entry] = entry :: replicate n entry.
Proof.
  intros Hl Hk. unfold bucket, declared. cbn [flat_map]. rewrite Hl. simpl. rewrite app_nil_r.
  destruct (filter (fun o => o = k) l) as [|o os] eqn:Hf.
  - assert (Hin : k ∈ filter (fun o => o = k) l) by by apply list_elem_of_filter.
    rewrite Hf in Hin. by apply elem_of_nil in Hin.
  - by exists (length os).
Qed.

(** The loop of the main program builds the index of the entries it
    extracts from the [entry] children of the body, in their order. *)
Lemma build_index_aggregate body :
  build_index body = Ok (aggregate (extracted_entries body)).
Proof.
  unfold build_index, aggregate, extracted_entries.
  generalize (∅ : gmap string (list DictEntry)).
  induction (children body) as [|c cs IH]; intros entries; [done|].
  rewrite for_each_cons, filter_cons.
  destruct (String.eqb_spec (tag c) "entry") as [Ht|Ht].
  - rewrite decide_True by done. rewrite collect_fresh. cbn [mbind result_bind].
    by rewrite IH.
  - rewrite decide_False by done. cbn [mbind result_bind]. by rewrite IH.
Qed.

(** ** Claim on the headword index *)

(** C9: for every sequence of extracted entries, in encounter order, the
    index has under each spelling the entries that declare it, in that
    order, each as often as it declares the spelling, and has no bucket for
    a spelling that nobody declares.  So an entry without orthography is in
    no bucket, and of two entries that declare the same spelling the one
    met first stands first in that spelling's bucket.  The loop of the main
    program builds this index from the [entry] children of the body, taken
    in document order. *)
Theorem aggregate_buckets extracted :
  (forall k, aggregate extracted !! k = extend_field None (bucket k extracted)) /\
  (forall entry k b,
     orth entry = None -> aggregate extracted !! k = Some b -> entry ∉ b) /\
  (forall k before e1 between e2 after l1 l2,
     extracted = before ++ e1 :: between ++ e2 :: after ->
     orth e1 = Some l1 -> k ∈ l1 -> orth e2 = Some l2 -> k ∈ l2 ->
     exists n1 n2,
       aggregate extracted !! k =
       Some (bucket k before ++ (e1 :: replicate n1 e1) ++ bucket k between
             ++ (e2 :: replicate n2 e2) ++ bucket k after)) /\
  (forall body,
     extracted = extracted_entries body -> build_index body = Ok (aggregate extracted)).
Proof.
  split_and!.
  - apply aggregate_lookup.
  - intros entry k b Hnone Hb Hin. rewrite aggregate_lookup in Hb.
    assert (Hin' : entry ∈ bucket k extracted).
    { destruct (bucket k extracted); simplify_eq/=; done. }
    apply elem_of_bucket in Hin' as (_ & l & Hl & _). congruence.
  - intros k before e1 between e2 after l1 l2 -> H1 Hk1 H2 Hk2.
    destruct (bucket_declaring k e1 l1 H1 Hk1) as [n1 Hn1].
    destruct (bucket_declaring k e2 l2 H2 Hk2) as [n2 Hn2].
    exists n1, n2. rewrite aggregate_lookup.
    rewrite bucket_app, (bucket_cons k e1), bucket_app, (bucket_cons k e2).
    rewrite Hn1, Hn2. by destruct (bucket k before).
  - intros body ->. apply build_index_aggregate.
Qed.

Lemma aggregate_buckets_witness :
  aggregate [run_verb; orthless; run_noun] !! "run" = Some [run_verb; run_noun] /\
  (forall k b, aggregate [run_verb; orthless; run_noun] !! k = Some b -> orthless ∉ b) /\
  (exists n1 n2,
     aggregate [run_verb; orthless; run_noun] !! "run" =
     Some (bucket "run" [] ++ (run_verb :: replicate n1 run_verb)
           ++ bucket "run" [orthless]
           ++ (run_noun :: replicate n2 run_noun) ++ bucket "run" [])).
Proof.
  destruct (aggregate_buckets [run_verb; orthless; run_noun])
    as (Hlookup & Habsent & Horder & _).
  split_and!.
  - by rewrite Hlookup.
  - intros k b. by apply (Habsent orthless k b).
  - apply (Horder "run" [] run_verb [orthless] run_noun [] ["run"] ["run"; "runs"]).
    + reflexivity.
    + reflexivity.
    + by left.
    + reflexivity.
    + by left.
Defined.

(** * Further properties of the code *)

(** ** How deep the walks look *)

Lemma dots_app a b : dots (a +:+ b) = dots a + dots b.
Proof.
  induction a as [|c a IH]; [done|].
  change (String c a +:+ b) with (String c (a +:+ b)). simpl. rewrite IH. lia.
Qed.

Lemma dots_join l : length l <= S (dots (join l)).
Proof.
  unfold join. induction l as [|x [|y l] IH]; simpl; [lia|lia|].
  change (String.concat "." (x :: y :: l))
    with (x +:+ "." +:+ String.concat "." (y :: l)).
  rewrite !dots_app. simpl in *. lia.
Qed.

(** Under a prefix longer than the number of dots of [p], no path is [p]. *)
Lemma nodes_at_deep p e : forall prefix,
  dots p < length prefix -> nodes_at p prefix e = [].
Proof.
  induction e as [i t x tl a cs IH] using Element_ind. intros prefix Hlen.
  rewrite nodes_at_unfold. cbn [tag children].
  destruct (String.eqb_spec (join (prefix ++ [t])) p) as [Hp|_].
  { pose proof (dots_join (prefix ++ [t])) as Hd.
    rewrite Hp, length_app in Hd. simpl in Hd. lia. }
  simpl. induction IH as [|c cs Hc _ IHcs]; [done|]. simpl.
  rewrite IHcs, app_nil_r. apply Hc. rewrite length_app. simpl. lia.
Qed.

(** X1: under a prefix of four or more tags the sense extractor returns
    the sense it was given, whatever the element holds: a quote or a def
    that lies deeper than [entry.sense.cit.quote] or
    [entry.sense.sense.def] is never collected. *)
Theorem collect_sense_deep element sense prefix :
  4 <= length prefix ->
  collect_sense element sense prefix = Ok (sense, prefix).
Proof.
  intros Hlen. rewrite collect_sense_spec. unfold texts_at.
  rewrite !nodes_at_deep by (simpl; lia). by destruct sense.
Qed.

Lemma collect_sense_deep_witness :
  collect_sense deep_def DictSense_new ["entry"; "sense"; "sense"; "sense"] =
  Ok (DictSense_new, ["entry"; "sense"; "sense"; "sense"]).
Proof.
  apply (collect_sense_deep deep_def DictSense_new
           ["entry"; "sense"; "sense"; "sense"]).
  simpl. lia.
Defined.

(** X2: called under a prefix of three or more tags the entry extractor
    returns the entry it was given: orthography, pronunciation, gender, part
    of speech and sense elements are only recognised within the first three
    levels, the entry element counted. *)
Theorem collect_deep element output prefix :
  3 <= length prefix ->
  collect element output prefix = Ok (output, prefix).
Proof.
  intros Hlen. rewrite collect_any. do 2 f_equal.
  rewrite <- (entry_extend_none output) at 2.
  apply entry_extend_ext; apply nodes_at_deep; simpl; lia.
Qed.

Lemma collect_deep_witness :
  collect (elem 0 "orth" (Some "x") []) DictEntry_new ["entry"; "form"; "form"] =
  Ok (DictEntry_new, ["entry"; "form"; "form"]).
Proof.
  apply (collect_deep (elem 0 "orth" (Some "x") []) DictEntry_new
           ["entry"; "form"; "form"]).
  simpl. lia.
Defined.

(** ** Flattening any number of super entries *)

Lemma remove_first_absent sub l :
  Forall (fun c => oid c <> oid sub) l -> remove_first sub l = None.
Proof.
  induction 1 as [|c l Hc _ IH]; simpl; [done|].
  apply Nat.eqb_neq in Hc. by rewrite Hc, IH.
Qed.

Lemma set_children_set_children parent l1 l2 :
  set_children (set_children parent l1) l2 = set_children parent l2.
Proof. reflexivity. Qed.

Lemma set_children_children parent : set_children parent (children parent) = parent.
Proof. by destruct parent. Qed.

(** The flattening loop over the super entries that are still among the
    children: [front] holds no super entry, [appended] is what the loop has
    appended so far. *)
Lemma flatten_loop rest : forall parent front appended,
  children parent = front ++ rest ++ appended ->
  NoDup (oid <$> front ++ rest) ->
  for_each (fun super parent =>
              Element_remove (foldl Element_append parent (children super)) super)
           (filter (fun e => tag e = SUPER_ENTRY) rest) parent =
  Ok (set_children parent
        (front ++ filter (fun e => tag e <> SUPER_ENTRY) rest ++ appended
         ++ flat_map children (filter (fun e => tag e = SUPER_ENTRY) rest))).
Proof.
  induction rest as [|c rest IH]; intros parent front appended Hcs Hid.
  - simpl in *. rewrite app_nil_r, <- Hcs. by rewrite set_children_children.
  - rewrite !filter_cons. destruct (decide (tag c = SUPER_ENTRY)) as [Hc|Hc].
    + rewrite decide_False by (by intros []).
      rewrite for_each_cons, foldl_Element_append. unfold Element_remove.
      cbn [children set_children]. rewrite Hcs.
      replace ((front ++ (c :: rest) ++ appended) ++ children c)
        with (front ++ c :: (rest ++ appended ++ children c))
        by (by rewrite <- !app_assoc).
      rewrite remove_first_middle.
      * cbn [mbind result_bind].
        rewrite (IH _ front (appended ++ children c)).
        -- rewrite !set_children_set_children. do 2 f_equal.
           simpl. by rewrite <- !app_assoc.
        -- done.
        -- rewrite fmap_app, fmap_cons in Hid. rewrite fmap_app.
           apply NoDup_app in Hid as (Hf & Hdis & Hr).
           apply NoDup_cons in Hr as [_ Hr].
           apply NoDup_app. split_and!; [done| |done].
           intros y Hy Hy'. apply (Hdis y Hy). by right.
      * rewrite fmap_app, fmap_cons in Hid.
        apply NoDup_app in Hid as (_ & Hdis & _).
        apply Forall_forall. intros y Hy Heq.
        apply (Hdis (oid y)); [by apply list_elem_of_fmap_2|].
        rewrite Heq. by left.
    + rewrite decide_True by done.
      rewrite (IH parent (front ++ [c]) appended).
      * by rewrite <- !app_assoc.
      * by rewrite <- !app_assoc.
      * by rewrite <- !app_assoc.
Qed.

Lemma findall_children t parent :
  Forall (fun c => Forall (no_tag t) (children c)) (children parent) ->
  findall t parent = filter (fun e => tag e = t) (children parent).
Proof.
  unfold findall. induction 1 as [|c cs Hc _ IH]; [done|]. simpl.
  rewrite filter_app, IH, iter_unfold, !filter_cons.
  rewrite (filter_iter_no_tag t (children c)) by done.
  by destruct (decide (tag c = t)).
Qed.

(** X3: when every super entry of the body is one of its children, and
    the children are distinct objects, flattening returns: the body keeps
    its other children in their order, and after them come the children of
    the super entries, super entry by super entry in document order. *)
Theorem handle_super_entries_children parent :
  Forall (fun c => Forall (no_tag SUPER_ENTRY) (children c)) (children parent) ->
  NoDup (oid <$> children parent) ->
  handle_super_entries parent =
  Ok (set_children parent
        (filter (fun e => tag e <> SUPER_ENTRY) (children parent)
         ++ flat_map children
              (filter (fun e => tag e = SUPER_ENTRY) (children parent)))).
Proof.
  intros Hflat Hid. unfold handle_super_entries.
  rewrite findall_children by done.
  rewrite (flatten_loop (children parent) parent [] []).
  - done.
  - by rewrite app_nil_r.
  - done.
Qed.

Lemma handle_super_entries_children_witness :
  handle_super_entries two_supers_body =
  Ok (elem 0 "body" None
        [ elem 4 "p" None []; elem 7 "q" None [];
          elem 2 "a" None []; elem 3 "b" None []; elem 6 "c" None [] ]).
Proof.
  apply (handle_super_entries_children two_supers_body).
  - unfold no_tag. simpl. repeat constructor; discriminate.
  - apply (bool_decide_unpack _). reflexivity.
Defined.

(** X4: when the first super entry that [findall] meets is neither a child
    of the body nor a child of itself, flattening raises [ValueError]: its
    children are appended to the body, but [remove] does not find it there.
    So a super entry below a [div] stops the run. *)
Theorem handle_super_entries_not_child parent super rest :
  findall SUPER_ENTRY parent = super :: rest ->
  Forall (fun c => oid c <> oid super) (children parent ++ children super) ->
  handle_super_entries parent = Raise ValueError.
Proof.
  intros Hfind Hid. unfold handle_super_entries.
  rewrite Hfind, for_each_cons, foldl_Element_append. unfold Element_remove.
  cbn [children set_children]. by rewrite remove_first_absent.
Qed.

Lemma handle_super_entries_not_child_witness :
  handle_super_entries deep_super_body = Raise ValueError.
Proof.
  apply (handle_super_entries_not_child deep_super_body
           (elem 2 SUPER_ENTRY None
              [ elem 3 "{http://www.tei-c.org/ns/1.0}entry" None [];
                elem 4 "{http://www.tei-c.org/ns/1.0}entry" None [] ]) []).
  - reflexivity.
  - simpl. repeat constructor; discriminate.
Defined.

(** ** Inclusion resolution in general *)

Lemma include_step_included parse path c entries :
  resolves parse path c ->
  include_step parse path c entries = Ok (entries ++ included parse path c).
Proof.
  intros Hc. unfold include_step, included.
  destruct (String.eqb_spec (tag c) XINCLUDE) as [Ht|_]; [|by rewrite app_nil_r].
  destruct (Hc Ht) as (href & root & -> & ->). by rewrite foldl_snoc.
Qed.

Lemma include_loop parse path l : forall entries,
  Forall (resolves parse path) l ->
  for_each (include_step parse path) l entries =
  Ok (entries ++ flat_map (included parse path) l).
Proof.
  induction l as [|c l IH]; intros entries Hl.
  - simpl. by rewrite app_nil_r.
  - apply Forall_cons in Hl as [Hc Hl].
    rewrite for_each_cons, include_step_included by done.
    cbn [mbind result_bind]. rewrite IH by done. simpl. by rewrite app_assoc.
Qed.

Lemma handle_includes_resolved parse path parent :
  Forall (resolves parse path) (children parent) ->
  handle_includes parse parent path =
  Ok (mkElement (oid parent) (tag parent) None None ∅
                (flat_map (included parse path) (children parent))).
Proof.
  intros Hall. unfold handle_includes. by rewrite include_loop.
Qed.

(** X5: when every inclusion directive among the children of the body
    names a file that parses, [handle_includes] returns the body with the
    same identity and tag, without text, tail and attributes, and with the
    children of the files' roots, directive by directive in document order,
    as its only children: every child that is no directive is dropped. *)
Theorem handle_includes_all parse path parent :
  Forall (resolves parse path) (children parent) ->
  handle_includes parse parent path =
  Ok (mkElement (oid parent) (tag parent) None None ∅
                (flat_map (included parse path) (children parent))).
Proof. apply handle_includes_resolved. Qed.

Lemma handle_includes_all_witness :
  handle_includes nested_files two_includes_body "temp" =
  Ok (elem 0 "body" None
        [ include 11 "c.tei"; elem 21 "{http://www.tei-c.org/ns/1.0}entry" None [] ]).
Proof.
  apply (handle_includes_all nested_files "temp" two_includes_body).
  repeat constructor; intros _.
  - by exists "a.tei", file_a.
  - by exists "b.tei", file_b.
Defined.

(** X6: the first directive that cannot be resolved stops
    [handle_includes] with an exception, [TypeError] when it has no [href]
    and the parser's failure when its file does not parse; directives after
    it are not looked at. *)
Theorem handle_includes_failure parse path parent before d after :
  children parent = before ++ d :: after ->
  Forall (resolves parse path) before ->
  tag d = XINCLUDE ->
  (attrib d !! "href" = None ->
   handle_includes parse parent path = Raise TypeError) /\
  (forall href,
     attrib d !! "href" = Some href -> parse (path +:+ "/" +:+ href) = None ->
     handle_includes parse parent path = Raise ParseFailure).
Proof.
  intros Hcs Hb Ht. unfold handle_includes.
  rewrite Hcs, for_each_app, include_loop by done.
  cbn [mbind result_bind]. rewrite for_each_cons.
  assert (Hstep : forall entries,
            include_step parse path d entries =
            match attrib d !! "href" with
            | None => Raise TypeError
            | Some href =>
                match parse (path +:+ "/" +:+ href) with
                | None => Raise ParseFailure
                | Some root => Ok (entries ++ children root)
                end
            end).
  { intros entries. unfold include_step. rewrite Ht, String.eqb_refl.
    destruct (attrib d !! "href") as [href|]; [|done].
    destruct (parse _); [|done]. by rewrite foldl_snoc. }
  rewrite Hstep. split.
  - by intros ->.
  - by intros href -> ->.
Qed.

Lemma handle_includes_failure_witness :
  handle_includes nested_files bad_include_body "temp" = Raise TypeError /\
  handle_includes no_files two_includes_body "temp" = Raise ParseFailure.
Proof.
  split.
  - apply (handle_includes_failure nested_files "temp" bad_include_body
             [include 1 "b.tei"] (mkElement 2 XINCLUDE None None ∅ []) []).
    + reflexivity.
    + repeat constructor. intros _. by exists "b.tei", file_b.
    + reflexivity.
    + reflexivity.
  - apply (handle_includes_failure no_files "temp" two_includes_body
             [] (include 1 "a.tei") [include 2 "b.tei"]
             eq_refl (List.Forall_nil _) eq_refl) with (href := "a.tei").
    + reflexivity.
    + reflexivity.
Defined.

(** ** Edge cases of [preprocess] *)

Lemma included_other parse path l :
  Forall (fun c => tag c <> XINCLUDE) l ->
  Forall (resolves parse path) l /\ flat_map (included parse path) l = [].
Proof.
  induction 1 as [|c l Hc _ [IH1 IH2]]; [done|]. split.
  - constructor; [by intros ?|done].
  - simpl. rewrite IH2, app_nil_r. unfold included.
    apply String.eqb_neq in Hc. by rewrite Hc.
Qed.

(** X7: the guard of [preprocess] looks for inclusion directives anywhere
    below the body, [handle_includes] only among its children.  A body that
    has a directive further down and none among its children therefore
    comes out empty: no children, no text, no attributes, and nothing is
    read from any file. *)
Theorem preprocess_deep_include parse path element depth err :
  strip_name (tag element) = "body" ->
  0 < length (findall XINCLUDE element) ->
  Forall (fun c => tag c <> XINCLUDE) (children element) ->
  preprocess parse (S depth) element path err =
  (Ok (mkElement (oid element) "body" None None ∅ []),
   err ++ strip_line (tag element)).
Proof.
  intros Ht Hfind Hcs. destruct (included_other parse path _ Hcs) as [Hres Hnil].
  cbn [preprocess]. unfold mbind at 1, M_bind at 1.
  rewrite remove_namespace_run, Ht.
  unfold mbind at 1, M_bind at 1. cbn [tag set_tag].
  change (findall XINCLUDE (set_tag element "body"))
    with (findall XINCLUDE element).
  apply Nat.ltb_lt in Hfind. rewrite Hfind.
  change (String.eqb "body" "body") with true. cbv iota.
  unfold lift. rewrite handle_includes_resolved by done.
  cbn [children oid tag set_tag]. rewrite Hnil.
  reflexivity.
Qed.

Lemma preprocess_deep_include_witness :
  preprocess nested_files 1 deep_include_body "temp" [] =
  (Ok (elem 0 "body" None []), []).
Proof.
  apply (preprocess_deep_include nested_files "temp" deep_include_body 0 []).
  - reflexivity.
  - simpl. lia.
  - repeat constructor; discriminate.
Defined.

Lemma strip_log_tei e :
  Forall (fun n => String.prefix TEI_NS (tag n) = true) (iter e) ->
  strip_log e = [].
Proof.
  induction e as [i t x tl a cs IH] using Element_ind.
  cbn [strip_log iter tag children]. intros [Ht Hcs]%Forall_cons.
  cbn [tag] in Ht. unfold strip_line. rewrite Ht. simpl.
  induction IH as [|c cs Hc _ IHcs]; [done|]. simpl in *.
  apply Forall_app in Hcs as [H1 H2]. by rewrite Hc, IHcs.
Qed.

Lemma no_tag_tei e :
  Forall (fun n => String.prefix TEI_NS (tag n) = true) (iter e) ->
  no_tag XINCLUDE e.
Proof.
  unfold no_tag. intros H. eapply Forall_impl; [exact H|].
  intros n Hn Heq. simpl in Hn. rewrite Heq in Hn. discriminate Hn.
Qed.

(** X8: on a tree in which every tag carries the TEI namespace and no
    element is a super entry, [preprocess] (given enough depth) writes
    nothing to [stderr] and changes nothing but the tags, each of which
    loses the namespace. *)
Theorem preprocess_tei_silent parse path element depth err :
  Forall (fun n => String.prefix TEI_NS (tag n) = true) (iter element) ->
  no_tag SUPER_ENTRY element ->
  height element <= depth ->
  preprocess parse depth element path err = (Ok (strip_tree element), err) /\
  Forall2 (fun n n' => tag n = TEI_NS +:+ tag n' /\ oid n' = oid n /\
                       text n' = text n /\ tail n' = tail n /\
                       attrib n' = attrib n)
          (iter element) (iter (strip_tree element)).
Proof.
  intros Htei Hs Hh. split.
  - rewrite preprocess_run by (done || by apply no_tag_tei).
    by rewrite strip_log_tei, app_nil_r.
  - clear Hs Hh depth err. revert Htei.
    induction element as [i t x tl a cs IH] using Element_ind.
    cbn [strip_tree iter tag children oid text tail attrib].
    intros [Ht Hcs]%Forall_cons. cbn [tag] in Ht. constructor.
    + cbn. split_and!; try done.
      apply str_prefix_iff in Ht as [b ->]. by rewrite strip_name_tei.
    + induction IH as [|c cs Hc _ IHcs]; [constructor|]. simpl in *.
      apply Forall_app in Hcs as [H1 H2]. apply Forall2_app; auto.
Qed.

Lemma preprocess_tei_silent_witness :
  preprocess no_files 4 tei_body "temp" [] = (Ok (strip_tree tei_body), []).
Proof.
  apply (preprocess_tei_silent no_files "temp" tei_body 4 []).
  - simpl. repeat constructor.
  - unfold no_tag. simpl. repeat constructor; discriminate.
  - simpl. lia.
Defined.

(** ** Keys and sizes of the headword index *)

Lemma length_bucket k extracted :
  length (bucket k extracted) = sum_list (declared k <$> extracted).
Proof.
  unfold bucket. induction extracted as [|e extracted IH]; [done|].
  simpl. by rewrite length_app, length_replicate, IH.
Qed.

(** X9: the keys of the index are exactly the spellings that some
    extracted entry declares; no bucket is empty, and a bucket is as long as
    its spelling is declared in all, an entry that lists the spelling twice
    counting twice. *)
Theorem aggregate_keys extracted k :
  (is_Some (aggregate extracted !! k) <->
   exists entry l, entry ∈ extracted /\ orth entry = Some l /\ k ∈ l) /\
  (forall b, aggregate extracted !! k = Some b ->
             b <> [] /\ length b = sum_list (declared k <$> extracted)).
Proof.
  rewrite aggregate_lookup. split.
  - split.
    + intros [b Hb]. destruct (bucket k extracted) as [|e b'] eqn:Hbk; [done|].
      assert (He : e ∈ bucket k extracted) by (rewrite Hbk; left).
      apply elem_of_bucket in He as (He & l & Hl & Hk). by exists e, l.
    + intros (e & l & He & Hl & Hk).
      assert (Hin : e ∈ bucket k extracted) by (apply elem_of_bucket; eauto).
      destruct (bucket k extracted); [by apply elem_of_nil in Hin|]. by eexists.
  - intros b Hb. rewrite <- length_bucket.
    destruct (bucket k extracted) as [|e b'] eqn:Hbk; [done|].
    simpl in Hb. by injection Hb as <-.
Qed.

Lemma aggregate_keys_witness :
  is_Some (aggregate [run_verb; orthless; run_noun] !! "runs") /\
  (forall b, aggregate [run_verb; orthless; run_noun] !! "run" = Some b ->
             b <> [] /\ length b = 2).
Proof.
  destruct (aggregate_keys [run_verb; orthless; run_noun] "runs") as [Hkey _].
  destruct (aggregate_keys [run_verb; orthless; run_noun] "run") as [_ Hlen].
  split.
  - apply Hkey. exists run_noun, ["run"; "runs"]. split_and!.
    + by right; right; left.
    + reflexivity.
    + by right; left.
  - exact Hlen.
Defined.

(** ** Language pairs *)

Lemma language_map_elem k v :
  language_map !! k = Some v -> (k, v) ∈ LANGUAGE_CODES.
Proof. apply elem_of_list_to_map_2. Qed.

Lemma language_codes_two_letters :
  Forall (fun p => String.length (snd p) = 2) LANGUAGE_CODES.
Proof. apply (bool_decide_unpack _). vm_compute. reflexivity. Qed.

Lemma language_codes_distinct :
  Forall (fun p1 => Forall (fun p2 => snd p1 = snd p2 -> fst p1 = fst p2)
                           LANGUAGE_CODES) LANGUAGE_CODES.
Proof. apply (bool_decide_unpack _). vm_compute. reflexivity. Qed.

Lemma language_map_two_letters k v :
  language_map !! k = Some v -> String.length v = 2.
Proof.
  intros H%language_map_elem.
  by apply (proj1 (Forall_forall _ _) language_codes_two_letters (k, v)).
Qed.

Lemma language_map_inj k1 k2 v :
  language_map !! k1 = Some v -> language_map !! k2 = Some v -> k1 = k2.
Proof.
  intros H1%language_map_elem H2%language_map_elem.
  pose proof (proj1 (Forall_forall _ _) language_codes_distinct (k1, v) H1) as H.
  by apply (proj1 (Forall_forall _ _) H (k2, v) H2).
Qed.

Lemma pair_code_inj (a b a' b' : string) :
  String.length a = 2 -> String.length a' = 2 ->
  a +:+ "-" +:+ b = a' +:+ "-" +:+ b' -> a = a' /\ b = b'.
Proof.
  destruct a as [|x [|y [|]]]; try done.
  destruct a' as [|x' [|y' [|]]]; try done.
  intros _ _ Heq. by simplify_eq.
Qed.

(** X10: [create_pair] returns exactly when both codes are keys of its
    map; it then writes nothing, and the pair has five characters, a
    two-letter code, a hyphen and a two-letter code.  Otherwise it writes
    one line that names the first missing code, the source code before the
    destination code, and the program exits with [-1]. *)
Theorem create_pair_outcome src_lang dst_lang err :
  (forall src dst,
     language_map !! src_lang = Some src -> language_map !! dst_lang = Some dst ->
     create_pair src_lang dst_lang err = (Returns (src +:+ "-" +:+ dst), err) /\
     String.length (src +:+ "-" +:+ dst) = 5) /\
  (language_map !! src_lang = None ->
   create_pair src_lang dst_lang err =
   (Stops (SystemExit (-1)), err ++ ["error: mapping missing for " +:+ src_lang])) /\
  (is_Some (language_map !! src_lang) -> language_map !! dst_lang = None ->
   create_pair src_lang dst_lang err =
   (Stops (SystemExit (-1)), err ++ ["error: mapping missing for " +:+ dst_lang])).
Proof.
  unfold create_pair. split_and!.
  - intros src dst Hs Hd. rewrite Hs, Hd. split; [done|].
    apply language_map_two_letters in Hs, Hd.
    destruct src as [|x [|y [|]]]; try done.
    destruct dst as [|x' [|y' [|]]]; done.
  - by intros ->.
  - by intros [src ->] ->.
Qed.

Lemma create_pair_outcome_witness :
  create_pair "eng" "deu" [] = (Returns "en-de", []) /\
  create_pair "xxx" "yyy" [] =
    (Stops (SystemExit (-1)), ["error: mapping missing for xxx"]) /\
  create_pair "eng" "yyy" [] =
    (Stops (SystemExit (-1)), ["error: mapping missing for yyy"]).
Proof.
  destruct (create_pair_outcome "eng" "deu" []) as (Hok & _ & _).
  destruct (create_pair_outcome "xxx" "yyy" []) as (_ & Hsrc & _).
  destruct (create_pair_outcome "eng" "yyy" []) as (_ & _ & Hdst).
  split_and!.
  - by apply (Hok "en" "de").
  - by apply Hsrc.
  - apply Hdst; [by exists "en" | done].
Defined.

(** X11: two calls of [create_pair] that return the same pair were given
    the same codes: no two language pairs share an output directory. *)
Theorem create_pair_injective src1 dst1 src2 dst2 err1 err2 code :
  create_pair src1 dst1 err1 = (Returns code, err1) ->
  create_pair src2 dst2 err2 = (Returns code, err2) ->
  src1 = src2 /\ dst1 = dst2.
Proof.
  unfold create_pair. intros H1 H2.
  destruct (language_map !! src1) as [a1|] eqn:Ha1; [|done].
  destruct (language_map !! dst1) as [b1|] eqn:Hb1; [|done].
  destruct (language_map !! src2) as [a2|] eqn:Ha2; [|done].
  destruct (language_map !! dst2) as [b2|] eqn:Hb2; [|done].
  simplify_eq.
  apply pair_code_inj in H1 as [-> ->];
    [|by eapply language_map_two_letters..].
  split; by eapply language_map_inj.
Qed.

Lemma create_pair_injective_witness :
  "eng" = "eng" /\ "deu" = "deu".
Proof.
  apply (create_pair_injective "eng" "deu" "eng" "deu" [] [] "en-de");
    reflexivity.
Defined.

(** ** The choice of dictionaries *)

Lemma split_hyphen_free s : hyphen_free s = true -> split_hyphen s = [s].
Proof.
  induction s as [|c s IH]; [done|]. simpl.
  intros [Hc Hs]%andb_true_iff. apply negb_true_iff in Hc.
  by rewrite Hc, IH.
Qed.

Lemma split_hyphen_cons a rest :
  hyphen_free a = true ->
  split_hyphen (a +:+ "-" +:+ rest) = a :: split_hyphen rest.
Proof.
  induction a as [|c a IH]; [done|]. simpl.
  intros [Hc Ha]%andb_true_iff. apply negb_true_iff in Hc.
  change (String c a +:+ "-" +:+ rest) with (String c (a +:+ "-" +:+ rest)).
  simpl. by rewrite Hc, IH.
Qed.

(** X12: the loop over the catalog skips an item that has the key
    [software] without looking at its name, and skips the names [ckb-kmr],
    [kha...] and [...ast] without looking at the map, so none of these ever
    ends the run; an item without [software] and without [name] raises
    [KeyError], and a name that is not skipped and has no hyphen raises
    [IndexError].  Nothing is written in any of these cases. *)
Theorem dict_pair_edges dict err :
  (has_software dict = true -> dict_pair dict err = (Returns None, err)) /\
  (has_software dict = false -> name dict = None ->
   dict_pair dict err = (Stops KeyError, err)) /\
  (forall n, has_software dict = false -> name dict = Some n ->
             skipped n = true -> dict_pair dict err = (Returns None, err)) /\
  (forall n, has_software dict = false -> name dict = Some n ->
             skipped n = false -> hyphen_free n = true ->
             dict_pair dict err = (Stops (Uncaught IndexError), err)).
Proof.
  unfold dict_pair, skipped. split_and!.
  - by intros ->.
  - by intros -> ->.
  - intros n -> -> Hskip.
    destruct (String.eqb n "ckb-kmr"); [done|].
    destruct (String.prefix "kha" n); [done|].
    destruct (endswith n "ast"); done.
  - intros n -> -> Hskip Hfree.
    apply orb_false_iff in Hskip as [Hskip ->].
    apply orb_false_iff in Hskip as [-> ->].
    by rewrite split_hyphen_free.
Qed.

Lemma dict_pair_edges_witness :
  dict_pair (mkDescriptor true None) [] = (Returns None, []) /\
  dict_pair (mkDescriptor false None) [] = (Stops KeyError, []) /\
  dict_pair (mkDescriptor false (Some "kha-deu")) [] = (Returns None, []) /\
  dict_pair (mkDescriptor false (Some "eng-ast")) [] = (Returns None, []) /\
  dict_pair (mkDescriptor false (Some "wordnet")) [] =
    (Stops (Uncaught IndexError), []).
Proof.
  split_and!.
  - by apply (proj1 (dict_pair_edges (mkDescriptor true None) [])).
  - by apply (proj1 (proj2 (dict_pair_edges (mkDescriptor false None) []))).
  - by apply (proj1 (proj2 (proj2
      (dict_pair_edges (mkDescriptor false (Some "kha-deu")) []))) "kha-deu").
  - by apply (proj1 (proj2 (proj2
      (dict_pair_edges (mkDescriptor false (Some "eng-ast")) []))) "eng-ast").
  - by apply (proj2 (proj2 (proj2
      (dict_pair_edges (mkDescriptor false (Some "wordnet")) []))) "wordnet").
Defined.

(** X13: for a name that is not skipped, the codes given to [create_pair]
    are the piece before the first hyphen and the piece after it, up to the
    next hyphen if there is one; what follows is ignored.  The outcome is
    that of [create_pair]. *)
Theorem dict_pair_pieces src_lang rest dst_lang more err :
  hyphen_free src_lang = true ->
  split_hyphen rest = dst_lang :: more ->
  skipped (src_lang +:+ "-" +:+ rest) = false ->
  dict_pair (mkDescriptor false (Some (src_lang +:+ "-" +:+ rest))) err =
  paired (create_pair src_lang dst_lang err).
Proof.
  intros Hfree Hrest Hskip. unfold dict_pair, skipped in *. cbn [has_software name].
  apply orb_false_iff in Hskip as [Hskip ->].
  apply orb_false_iff in Hskip as [-> ->].
  by rewrite split_hyphen_cons, Hrest.
Qed.

Lemma dict_pair_pieces_witness :
  dict_pair (mkDescriptor false (Some "eng-deu-2024")) [] = (Returns (Some "en-de"), []).
Proof.
  apply (dict_pair_pieces "eng" "deu-2024" "deu" ["2024"] []); reflexivity.
Defined.

(** ** The renderer *)

Lemma all_texts_None items : None ∈ items -> all_texts items = None.
Proof.
  induction items as [|[x|] items IH]; intros Hin.
  - by apply elem_of_nil in Hin.
  - apply elem_of_cons in Hin as [?|Hin]; [done|]. simpl. by rewrite IH.
  - done.
Qed.

Lemma all_texts_Some items :
  None ∉ items -> is_Some (all_texts items).
Proof.
  induction items as [|[x|] items IH]; intros Hin.
  - by eexists.
  - simpl. destruct IH as [xs ->]; [|by eexists].
    intros H. apply Hin. by right.
  - destruct Hin. by left.
Qed.

Lemma gen_texts_false entry :
  gen_texts entry = false <-> exists l, gen entry = Some l /\ None ∈ l.
Proof.
  unfold gen_texts. rewrite bool_decide_eq_false. split.
  - intros Hno. destruct (gen entry) as [l|]; [|destruct Hno; by eexists].
    exists l. split; [done|]. simpl in Hno.
    destruct (decide (None ∈ l)) as [|Hnot]; [done|].
    destruct Hno. by apply all_texts_Some.
  - intros (l & -> & Hin) [xs Hxs]. simpl in Hxs.
    by rewrite all_texts_None in Hxs.
Qed.

Lemma entry_writes_status orth count index entry :
  snd (entry_writes orth count index entry) =
  if gen_texts entry then Ok tt else Raise TypeError.
Proof.
  unfold entry_writes, gen_texts, join_texts.
  destruct (gen entry) as [[|g gs]|]; cbn [truthy default from_option id];
    try done.
  destruct (all_texts (g :: gs)) as [xs|] eqn:Hxs; cbn [mbind result_bind snd].
  - by rewrite bool_decide_true by (by eexists).
  - by rewrite bool_decide_false by (by intros [? ?]).
Qed.

Lemma entries_writes_status orth count entries : forall index,
  snd (entries_writes orth count index entries) =
  if forallb gen_texts entries then Ok tt else Raise TypeError.
Proof.
  induction entries as [|entry entries IH]; intros index; [done|].
  cbn [entries_writes forallb].
  pose proof (entry_writes_status orth count index entry) as Hst.
  destruct (entry_writes orth count index entry) as [ws [[]|e]]; simpl in Hst.
  - destruct (gen_texts entry); [|done]. simpl.
    specialize (IH (S index)).
    by destruct (entries_writes orth count (S index) entries).
  - destruct (gen_texts entry); by simplify_eq.
Qed.

Lemma forallb_gen_texts_false entries :
  forallb gen_texts entries = false <->
  exists entry l, entry ∈ entries /\ gen entry = Some l /\ None ∈ l.
Proof.
  split.
  - induction entries as [|e entries IH]; [done|]. simpl.
    intros [He|Hf]%andb_false_iff.
    + apply gen_texts_false in He as (l & Hl & Hin). exists e, l.
      split_and!; [by left|done|done].
    + destruct (IH Hf) as (e' & l & He' & Hl & Hin). exists e', l.
      split_and!; [by right|done|done].
  - intros (entry & l & Hin & Hl & Hnone).
    destruct (forallb gen_texts entries) eqn:Hall; [|done].
    rewrite forallb_forall in Hall. apply list_elem_of_In in Hin.
    specialize (Hall entry Hin).
    assert (gen_texts entry = false) by (apply gen_texts_false; eauto).
    congruence.
Qed.

Lemma sense_writes_indented pos_gen i sense :
  Forall (fun line => String.prefix "  " line = true) (sense_writes pos_gen i sense).
Proof.
  unfold sense_writes. repeat apply Forall_app_2.
  - by constructor.
  - destruct (truthy (quotes sense)); [|done].
    apply Forall_forall. intros line (q & -> & _)%list_elem_of_fmap. done.
  - destruct (truthy (defs sense)); [|done].
    apply Forall_forall. intros line (q & -> & _)%list_elem_of_fmap. done.
Qed.

Lemma entry_writes_indented orth count index entry :
  Forall (fun line => String.prefix "  " line = true)
         (fst (entry_writes orth count index entry)).
Proof.
  unfold entry_writes.
  assert (Ht : Forall (fun line => String.prefix "  " line = true)
            ((if count =? 1 then [ "  <h3>" +:+ orth +:+ "</h3>" +:+ newline ]
              else [ "  <h3>" +:+ orth +:+ "<sup>" +:+ pretty index
                     +:+ "</sup></h3>" +:+ newline ])
             ++ (if truthy (pron entry) then
                   [ "  <span class=" +:+ quoted "pron" +:+ ">"
                     +:+ String.concat " " (default [] (pron entry))
                     +:+ "</span><br/>" +:+ newline ]
                 else []))).
  { apply Forall_app_2.
    - destruct (count =? 1); by constructor.
    - destruct (truthy (pron entry)); [by constructor|done]. }
  match goal with |- context [match ?r with Ok _ => _ | Raise _ => _ end] =>
    destruct r as [pos_gen|e] end; cbn [fst]; [|done].
  rewrite app_assoc. apply Forall_app_2; [done|].
  destruct (truthy (senses entry)); [|done].
  apply Forall_forall. intros line Hin.
  apply list_elem_of_In, in_concat in Hin as (ws & Hws & Hline).
  apply list_elem_of_In, elem_of_lookup_imap in Hws as (i & sense & -> & _).
  apply list_elem_of_In in Hline.
  by apply (proj1 (Forall_forall _ _) (sense_writes_indented pos_gen (S i) sense)).
Qed.

Lemma entries_writes_indented orth count entries : forall index,
  Forall (fun line => String.prefix "  " line = true)
         (fst (entries_writes orth count index entries)).
Proof.
  induction entries as [|entry entries IH]; intros index; [done|].
  cbn [entries_writes].
  pose proof (entry_writes_indented orth count index entry) as He.
  destruct (entry_writes orth count index entry) as [ws [[]|e]]; [|done].
  specialize (IH (S index)).
  destruct (entries_writes orth count (S index) entries) as [ws' r].
  by apply Forall_app_2.
Qed.

Lemma generate_html_raises creatable orth entries filename w :
  creatable filename = true ->
  (exists entry l, entry ∈ entries /\ gen entry = Some l /\ None ∈ l) ->
  exists ws,
    generate_html creatable orth entries filename w =
    (Raise TypeError, mkWorld (<[filename := PAGE_HEAD ++ ws]> (files w)) (stderr w)) /\
    Forall (fun line => String.prefix "  " line = true) ws.
Proof.
  intros Hc Hgen%forallb_gen_texts_false. unfold generate_html. rewrite Hc.
  pose proof (entries_writes_status orth (length entries) entries 1) as Hst.
  pose proof (entries_writes_indented orth (length entries) entries 1) as Hind.
  rewrite Hgen in Hst.
  destruct (entries_writes orth (length entries) 1 entries) as [ws r].
  simpl in Hst, Hind. subst r. by exists ws.
Qed.

(** X14: when the file can be opened and some entry of the headword has
    [None] among its genders, [generate_html] raises [TypeError], which its
    [except] clause does not catch: nothing is written to [stderr], and the
    file is left with the head of the page and the lines written so far,
    without the closing [</html>]. *)
Theorem generate_html_gen_none creatable orth entries filename w :
  creatable filename = true ->
  (exists entry l, entry ∈ entries /\ gen entry = Some l /\ None ∈ l) ->
  exists ws,
    generate_html creatable orth entries filename w =
    (Raise TypeError, mkWorld (<[filename := PAGE_HEAD ++ ws]> (files w)) (stderr w)) /\
    last (PAGE_HEAD ++ ws) <> Some ("</html>" +:+ newline).
Proof.
  intros Hc Hgen.
  destruct (generate_html_raises creatable orth entries filename w Hc Hgen)
    as (ws & Hrun & Hind).
  exists ws. split; [done|].
  destruct ws as [|line ws _] using rev_ind; [done|].
  rewrite app_assoc, last_snoc. intros [= Heq].
  apply Forall_app in Hind as [_ Hline]. apply Forall_cons in Hline as [Hline _].
  by rewrite Heq in Hline.
Qed.

Lemma generate_html_gen_none_witness :
  exists ws,
    generate_html all_creatable "cat" [gen_less] "html/en-de/cat.html" empty_world =
    (Raise TypeError,
     mkWorld (<["html/en-de/cat.html" := PAGE_HEAD ++ ws]> ∅) []) /\
    last (PAGE_HEAD ++ ws) <> Some ("</html>" +:+ newline).
Proof.
  apply (generate_html_gen_none all_creatable "cat" [gen_less]
           "html/en-de/cat.html" empty_world).
  - reflexivity.
  - exists gen_less, [None]. split_and!; [by left|reflexivity|by left].
Defined.

Lemma generate_html_clean creatable orth entries filename w :
  forallb gen_texts entries = true ->
  generate_html creatable orth entries filename w =
  (Ok (if creatable filename then 1 else 0),
   attempt creatable (page orth entries) w filename).
Proof.
  intros Hall. unfold generate_html, page, attempt, warning.
  pose proof (entries_writes_status orth (length entries) entries 1) as Hst.
  rewrite Hall in Hst.
  destruct (entries_writes orth (length entries) 1 entries) as [ws r].
  simpl in Hst. subst r. by destruct (creatable filename).
Qed.

Lemma generate_orth_attempts creatable orth entries html_path w :
  forallb gen_texts entries = true ->
  generate_orth creatable orth entries html_path w =
  (Ok (if existsb creatable (targets html_path orth) then 1 else 0),
   foldl (attempt creatable (page orth entries)) w (targets html_path orth)).
Proof.
  intros Hall. unfold generate_orth, targets.
  destruct (String.eqb orth (replace_space orth)).
  - rewrite generate_html_clean by done. cbn [existsb foldl].
    by rewrite orb_false_r.
  - rewrite !generate_html_clean by done. cbn [existsb foldl].
    rewrite orb_false_r.
    destruct (creatable (html_path +:+ "/" +:+ orth +:+ ".html"));
      by destruct (creatable (html_path +:+ "/" +:+ replace_space orth +:+ ".html")).
Qed.

Lemma attempts_files creatable p ts f : forall w,
  files (foldl (attempt creatable p) w ts) !! f =
  if bool_decide (f ∈ ts) && creatable f then Some p else files w !! f.
Proof.
  induction ts as [|t ts IH]; intros w; [done|].
  cbn [foldl]. rewrite IH.
  destruct (decide (f ∈ ts)) as [Hin|Hnin].
  - rewrite !bool_decide_true by (done || by right).
    destruct (creatable f) eqn:Hf; [done|]. cbn [andb].
    unfold attempt. destruct (creatable t) eqn:Ht; [|done]. cbn [files].
    rewrite lookup_insert_ne; [done|]. intros ->. congruence.
  - rewrite bool_decide_false by done. cbn [andb].
    unfold attempt. destruct (decide (f = t)) as [->|Hne].
    + rewrite bool_decide_true by (by left).
      destruct (creatable t); [|done]. cbn [files andb].
      by rewrite lookup_insert_eq.
    + rewrite bool_decide_false by (intros [?|?]%elem_of_cons; done).
      destruct (creatable t); [|done]. cbn [files andb].
      by rewrite lookup_insert_ne.
Qed.

Lemma attempts_stderr creatable p ts : forall w,
  stderr (foldl (attempt creatable p) w ts) =
  stderr w ++ (warning <$> filter (fun f => creatable f = false) ts).
Proof.
  induction ts as [|t ts IH]; intros w; cbn [foldl].
  - by rewrite app_nil_r.
  - rewrite IH, filter_cons. unfold attempt.
    destruct (creatable t) eqn:Ht; cbn [stderr].
    + by rewrite decide_False by done.
    + rewrite decide_True by done. by rewrite fmap_cons, <- app_assoc.
Qed.

(** X15: for a headword whose entries all have strings as genders,
    [generate_orth] returns [1] when at least one of its files could be
    opened and [0] otherwise; every file that could be opened holds the
    page of the headword afterwards, the same page in both files of a
    headword with a space; no other file changes; and [stderr] receives one
    warning for each file that could not be opened, in the order of the
    attempts. *)
Theorem generate_orth_clean creatable orth entries html_path w :
  forallb gen_texts entries = true ->
  exists w',
    generate_orth creatable orth entries html_path w =
      (Ok (if existsb creatable (targets html_path orth) then 1 else 0), w') /\
    (forall f,
       files w' !! f =
       if bool_decide (f ∈ targets html_path orth) && creatable f
       then Some (page orth entries) else files w !! f) /\
    stderr w' =
      stderr w ++ (warning <$> filter (fun f => creatable f = false)
                                      (targets html_path orth)).
Proof.
  intros Hall. eexists. split_and!.
  - by apply generate_orth_attempts.
  - intros f. apply attempts_files.
  - apply attempts_stderr.
Qed.

Lemma generate_orth_clean_witness :
  exists w',
    generate_orth all_creatable "New York" [plain_run] "html" empty_world =
      (Ok 1, w') /\
    files w' !! "html/New York.html" = Some (page "New York" [plain_run]) /\
    files w' !! "html/New_York.html" = Some (page "New York" [plain_run]) /\
    stderr w' = [].
Proof.
  destruct (generate_orth_clean all_creatable "New York" [plain_run] "html"
              empty_world eq_refl) as (w' & Hrun & Hfiles & Herr).
  exists w'. split_and!.
  - exact Hrun.
  - by rewrite Hfiles.
  - by rewrite Hfiles.
  - exact Herr.
Defined.

(** ** Headwords with spaces *)

Lemma replace_space_fixed s : replace_space s = s <-> has_space s = false.
Proof.
  induction s as [|c s IH]; [done|]. simpl.
  destruct (Ascii.eqb_spec c " "%char) as [->|Hc]; simpl.
  - split; [|done]. by intros [=].
  - rewrite <- IH. split; [by intros [=]|by intros ->].
Qed.

Lemma replace_space_no_space s : has_space (replace_space s) = false.
Proof.
  induction s as [|c s IH]; [done|]. simpl.
  destruct (Ascii.eqb_spec c " "%char) as [->|Hc]; simpl; [done|].
  apply Ascii.eqb_neq in Hc. by rewrite Hc.
Qed.

Lemma replace_space_length s : String.length (replace_space s) = String.length s.
Proof. induction s as [|c s IH]; [done|]. simpl. by rewrite IH. Qed.

Lemma str_app_inv_r (a b c : string) :
  String.length a = String.length b -> a +:+ c = b +:+ c -> a = b.
Proof.
  revert b. induction a as [|x a IH]; intros [|y b]; try done.
  intros [= Hlen].
  change (String x (a +:+ c) = String y (b +:+ c) -> String x a = String y b).
  intros [= -> Heq]. f_equal. by apply IH.
Qed.

(** X16: for a headword without a space [generate_orth] is one call of
    [generate_html], for the file named after the headword.  For a headword
    with a space there is a second file, whose name differs from the first
    and holds no space, every space having become an underscore.  It is
    written after the first, in the world the first call leaves, and not at
    all when the first call raises: when the first call returns,
    [generate_orth] ends as the second call does, with the count of the
    first call unless that is [0]; the second file then holds the page if
    it can be created, and [stderr] has the warning for it if not. *)
Theorem generate_orth_space creatable orth entries html_path w :
  (has_space orth = false ->
   targets html_path orth = [ html_path +:+ "/" +:+ orth +:+ ".html" ] /\
   generate_orth creatable orth entries html_path w =
   generate_html creatable orth entries (html_path +:+ "/" +:+ orth +:+ ".html") w) /\
  (has_space orth = true ->
   targets html_path orth =
     [ html_path +:+ "/" +:+ orth +:+ ".html";
       html_path +:+ "/" +:+ replace_space orth +:+ ".html" ] /\
   html_path +:+ "/" +:+ orth +:+ ".html" <>
     html_path +:+ "/" +:+ replace_space orth +:+ ".html" /\
   has_space (replace_space orth) = false /\
   String.length (replace_space orth) = String.length orth /\
   (forall e w1,
     generate_html creatable orth entries
       (html_path +:+ "/" +:+ orth +:+ ".html") w = (Raise e, w1) ->
     generate_orth creatable orth entries html_path w = (Raise e, w1)) /\
   (forall n1 w1,
     generate_html creatable orth entries
       (html_path +:+ "/" +:+ orth +:+ ".html") w = (Ok n1, w1) ->
     let second := html_path +:+ "/" +:+ replace_space orth +:+ ".html" in
     let end_world := snd (generate_orth creatable orth entries html_path w) in
     (forall n2 w2,
        generate_html creatable orth entries second w1 = (Ok n2, w2) ->
        generate_orth creatable orth entries html_path w =
        (Ok (if n1 =? 0 then n2 else n1), w2)) /\
     (forall e w2,
        generate_html creatable orth entries second w1 = (Raise e, w2) ->
        generate_orth creatable orth entries html_path w = (Raise e, w2)) /\
     (creatable second = true ->
      files end_world !! second =
      Some (match entries_writes orth (length entries) 1 entries with
            | (ws, Ok _) => PAGE_HEAD ++ ws ++ PAGE_FOOT
            | (ws, Raise _) => PAGE_HEAD ++ ws
            end) /\
      stderr end_world = stderr w1) /\
     (creatable second = false ->
      files end_world = files w1 /\
      stderr end_world =
      stderr w1 ++ ["warn: failed to create file " +:+ second +:+ newline]))).
Proof.
  unfold targets, generate_orth. split.
  - intros Hs%replace_space_fixed. by rewrite Hs, String.eqb_refl.
  - intros Hs.
    assert (Hne : orth <> replace_space orth).
    { intros Heq. symmetry in Heq. apply replace_space_fixed in Heq. congruence. }
    apply String.eqb_neq in Hne as Hneb. rewrite Hneb. split_and!.
    + done.
    + intros Heq. apply (inj (String.app html_path)) in Heq.
      apply (inj (String.app "/")) in Heq.
      apply str_app_inv_r in Heq; [done|by rewrite replace_space_length].
    + apply replace_space_no_space.
    + apply replace_space_length.
    + by intros e w1 ->.
    + intros n1 w1 ->. cbv zeta. split_and!.
      * by intros n2 w2 ->.
      * by intros e w2 ->.
      * intros Hc. unfold generate_html. rewrite Hc.
        destruct (entries_writes _ _ _ _) as [ws [u|e]]; cbn;
          by rewrite lookup_insert_eq.
      * intros Hc. unfold generate_html. by rewrite Hc.
Qed.

Lemma generate_orth_space_witness :
  (targets "html" "run" = [ "html/run.html" ] /\
   generate_orth all_creatable "run" [gen_less] "html" empty_world =
   generate_html all_creatable "run" [gen_less] "html/run.html" empty_world) /\
  targets "html" "New York" = [ "html/New York.html"; "html/New_York.html" ] /\
  files (snd (generate_orth all_creatable "New York" [plain_run] "html" empty_world))
    !! "html/New_York.html" =
  Some (PAGE_HEAD ++ fst (entries_writes "New York" 1 1 [plain_run]) ++ PAGE_FOOT).
Proof.
  split; [|split].
  - by apply (proj1 (generate_orth_space all_creatable "run" [gen_less] "html"
                       empty_world)).
  - by apply (proj2 (generate_orth_space all_creatable "New York" [gen_less] "html"
                       empty_world)).
  - destruct (proj2 (generate_orth_space all_creatable "New York" [plain_run]
                       "html" empty_world) eq_refl)
      as (_ & _ & _ & _ & _ & Hsecond).
    destruct (Hsecond 1 _ eq_refl) as (_ & _ & Hfile & _).
    exact (proj1 (Hfile eq_refl)).
Defined.

(** ** Texts that are [None] on the page *)

Lemma entry_writes_sense orth count index entry ss sense line :
  gen_texts entry = true -> senses entry = Some ss -> sense ∈ ss ->
  (forall pos_gen i, line ∈ sense_writes pos_gen i sense) ->
  line ∈ fst (entry_writes orth count index entry).
Proof.
  intros Hg Hss Hin Hline.
  pose proof (entry_writes_status orth count index entry) as Hst.
  rewrite Hg in Hst. unfold entry_writes in *. rewrite Hss in *.
  match type of Hst with context [match ?r with Ok _ => _ | Raise _ => _ end] =>
    destruct r as [pos_gen|e] end; [|done].
  cbn [fst]. rewrite !elem_of_app. right; right.
  destruct ss as [|s0 ss]; [by apply elem_of_nil in Hin|]. cbn [truthy default].
  apply list_elem_of_lookup in Hin as [i Hi].
  apply list_elem_of_In, in_concat.
  exists (sense_writes pos_gen (S i) sense). split.
  - apply list_elem_of_In, elem_of_lookup_imap. by exists i, sense.
  - apply list_elem_of_In, Hline.
Qed.

Lemma entries_writes_entry orth count entries entry line :
  forallb gen_texts entries = true -> entry ∈ entries ->
  (forall index, line ∈ fst (entry_writes orth count index entry)) ->
  forall index, line ∈ fst (entries_writes orth count index entries).
Proof.
  intros Hall Hin Hline.
  induction entries as [|e entries IH]; intros index;
    [by apply elem_of_nil in Hin|].
  simpl in Hall. apply andb_true_iff in Hall as [He Hall].
  cbn [entries_writes].
  pose proof (entry_writes_status orth count index e) as Hst. rewrite He in Hst.
  pose proof (Hline index) as Hl.
  destruct (entry_writes orth count index e) as [ws [[]|err]] eqn:Hw; [|done].
  destruct (entries_writes orth count (S index) entries) as [ws' r] eqn:Hw'.
  cbn [fst]. apply elem_of_app.
  apply elem_of_cons in Hin as [->|Hin].
  - left. by rewrite Hw in Hl.
  - right. specialize (IH Hall Hin (S index)). by rewrite Hw' in IH.
Qed.

(** X17: on the page of a headword whose entries all have strings as
    genders, every quote and every def of every sense has its line, and a
    text that is [None] is printed as the word [None]. *)
Theorem page_prints_texts orth entries entry ss sense :
  forallb gen_texts entries = true ->
  entry ∈ entries -> senses entry = Some ss -> sense ∈ ss ->
  (forall qs quote, quotes sense = Some qs -> quote ∈ qs ->
     ("  <p class=" +:+ quoted "quote" +:+ ">" +:+ format_text quote +:+ "</p>"
      +:+ newline) ∈ page orth entries) /\
  (forall ds defn, defs sense = Some ds -> defn ∈ ds ->
     ("  <p class=" +:+ quoted "def" +:+ ">- " +:+ format_text defn +:+ "</p>"
      +:+ newline) ∈ page orth entries) /\
  format_text None = "None".
Proof.
  intros Hall Hin Hss Hsense.
  assert (Hg : gen_texts entry = true).
  { rewrite forallb_forall in Hall. by apply Hall, list_elem_of_In. }
  split_and!; [| |done].
  - intros qs quote Hqs Hq. unfold page. rewrite !elem_of_app. right; left.
    apply (entries_writes_entry orth _ entries entry); [done..|].
    intros index. apply (entry_writes_sense orth _ index entry ss sense); [done..|].
    intros pos_gen i. unfold sense_writes. rewrite Hqs.
    destruct qs as [|q0 qs]; [by apply elem_of_nil in Hq|]. cbn [truthy default].
    rewrite !elem_of_app. right; left.
    apply list_elem_of_fmap. by exists quote.
  - intros ds defn Hds Hd. unfold page. rewrite !elem_of_app. right; left.
    apply (entries_writes_entry orth _ entries entry); [done..|].
    intros index. apply (entry_writes_sense orth _ index entry ss sense); [done..|].
    intros pos_gen i. unfold sense_writes. rewrite Hds.
    destruct ds as [|d0 ds]; [by apply elem_of_nil in Hd|]. cbn [truthy default].
    rewrite !elem_of_app. right; right.
    apply list_elem_of_fmap. by exists defn.
Qed.

Lemma page_prints_texts_witness :
  ("  <p class=" +:+ quoted "quote" +:+ ">None</p>" +:+ newline)
    ∈ page "run" [plain_run].
Proof.
  destruct (page_prints_texts "run" [plain_run] plain_run
              [ mkDictSense (Some [Some "a run"; None]) (Some [Some "course"]) ]
              (mkDictSense (Some [Some "a run"; None]) (Some [Some "course"])))
    as (Hq & _ & _).
  - reflexivity.
  - by left.
  - reflexivity.
  - by left.
  - apply (Hq [Some "a run"; None] None); [reflexivity|].
    by right; left.
Defined.

(** ** The pages of a dictionary and its success rate *)

Lemma sorted_keys_elem entries orth :
  orth ∈ sorted_keys entries <-> is_Some (entries !! orth).
Proof.
  unfold sorted_keys. rewrite merge_sort_Permutation, list_elem_of_fmap. split.
  - intros ([k b] & -> & Hin). apply elem_of_map_to_list in Hin. by eexists.
  - intros [b Hb]. exists (orth, b). split; [done|]. by apply elem_of_map_to_list.
Qed.

Lemma sorted_keys_length (entries : gmap string (list DictEntry)) :
  length (sorted_keys entries) = size entries.
Proof.
  unfold sorted_keys.
  by rewrite merge_sort_Permutation, length_fmap, length_map_to_list.
Qed.

Lemma generate_sorted_count creatable entries html_path orths : forall succ w,
  Forall (fun orth => exists b, entries !! orth = Some b /\
                                forallb gen_texts b = true) orths ->
  exists w',
    generate_sorted creatable entries html_path orths succ w =
    (Returns (succ + length (filter (fun orth =>
                 existsb creatable (targets html_path orth) = true) orths)), w') /\
    exists lines, stderr w' = stderr w ++ lines.
Proof.
  induction orths as [|orth orths IH]; intros succ w Hall.
  - exists w. split; [simpl; by rewrite Nat.add_0_r|]. exists []. by rewrite app_nil_r.
  - apply Forall_cons in Hall as [(b & Hb & Hclean) Hall].
    cbn [generate_sorted]. rewrite Hb.
    pose proof (generate_orth_attempts creatable orth b html_path w Hclean) as Hrun.
    pose proof (attempts_stderr creatable (page orth b) (targets html_path orth) w)
      as Herr.
    set (w1 := foldl (attempt creatable (page orth b)) w (targets html_path orth))
      in Hrun, Herr.
    rewrite Hrun.
    destruct (IH (succ + (if existsb creatable (targets html_path orth)
                          then 1 else 0)) w1 Hall) as (w' & Hloop & lines & Hlines).
    exists w'. split.
    + rewrite Hloop. do 2 f_equal. rewrite filter_cons.
      destruct (existsb creatable (targets html_path orth)).
      * rewrite decide_True by done. simpl. lia.
      * rewrite decide_False by done. lia.
    + eexists. by rewrite Hlines, Herr, <- app_assoc.
Qed.

(** X18: for an index that is not empty and whose entries all have strings
    as genders, the pages are generated without an exception, [stderr]
    begins with the [generate] line and ends with the line on the success
    rate, and the number of successes it reports is the number of headwords
    of which a file could be opened: never more than the number of
    headwords, also when a headword with a space gets two files. *)
Theorem generate_pages_count creatable format_percent pair html_path
    (entries : gmap string (list DictEntry)) w :
  entries <> ∅ ->
  (forall orth b, entries !! orth = Some b -> forallb gen_texts b = true) ->
  exists succ w' lines,
    generate_pages creatable format_percent pair html_path entries w =
      (Returns tt, w') /\
    succ = length (filter (fun orth =>
             existsb creatable (targets html_path orth) = true)
             (sorted_keys entries)) /\
    succ <= size entries /\
    stderr w' =
      stderr w ++ ["generate " +:+ html_path +:+ newline] ++ lines
      ++ [" - " +:+ pair +:+ ": " +:+ format_percent succ (size entries)
          +:+ "% entries generated" +:+ newline].
Proof.
  intros Hne Hclean. unfold generate_pages.
  set (w0 := mkWorld (files w) (stderr w ++ ["generate " +:+ html_path +:+ newline])).
  destruct (generate_sorted_count creatable entries html_path
              (sorted_keys entries) 0 w0) as (w' & Hloop & lines & Hlines).
  { apply Forall_forall. intros orth [b Hb]%sorted_keys_elem.
    exists b. split; [done|]. by apply (Hclean orth). }
  rewrite Hloop. apply map_size_non_empty_iff, Nat.eqb_neq in Hne. rewrite Hne.
  eexists _, _, lines. split_and!.
  - reflexivity.
  - reflexivity.
  - rewrite <- sorted_keys_length. simpl. apply length_filter.
  - cbn [stderr]. rewrite Hlines. cbn [stderr w0]. by rewrite <- !app_assoc.
Qed.

Lemma generate_pages_count_witness :
  exists succ w' lines,
    generate_pages none_creatable (fun _ _ => "0.00") "en-de" "html/en-de"
      (aggregate [run_noun]) empty_world = (Returns tt, w') /\
    succ = length (filter (fun orth =>
             existsb none_creatable (targets "html/en-de" orth) = true)
             (sorted_keys (aggregate [run_noun]))) /\
    succ <= size (aggregate [run_noun]) /\
    stderr w' =
      [] ++ ["generate " +:+ "html/en-de" +:+ newline] ++ lines
      ++ [" - " +:+ "en-de" +:+ ": " +:+ "0.00" +:+ "% entries generated"
          +:+ newline].
Proof.
  apply (generate_pages_count none_creatable (fun _ _ => "0.00") "en-de"
           "html/en-de" (aggregate [run_noun]) empty_world).
  - intros Heq. assert (H : aggregate [run_noun] !! "run" = None)
      by (by rewrite Heq).
    discriminate H.
  - intros orth b Hb. rewrite aggregate_lookup in Hb.
    destruct (bucket orth [run_noun]) as [|e es] eqn:Hbk; [done|].
    simpl in Hb. injection Hb as <-.
    apply forallb_forall. intros x Hx.
    assert (Hin : x ∈ bucket orth [run_noun])
      by (rewrite Hbk; by apply list_elem_of_In).
    apply elem_of_bucket in Hin as [Hin _].
    by apply list_elem_of_singleton in Hin as ->.
Defined.

Lemma aggregate_empty extracted :
  Forall (fun entry => default [] (orth entry) = []) extracted ->
  aggregate extracted = ∅.
Proof.
  intros Hall. apply map_eq. intros k.
  rewrite aggregate_lookup, lookup_empty.
  assert (Hb : bucket k extracted = []); [|by rewrite Hb].
  unfold bucket. induction Hall as [|e es He _ IH]; [done|].
  simpl. rewrite IH, app_nil_r. unfold declared. by rewrite He.
Qed.

(** X19: when no extracted entry has an orthography the index is empty,
    and the line on the success rate divides by zero: after the [generate]
    line the run stops with [ZeroDivisionError], no file is touched. *)
Theorem generate_pages_no_headword creatable format_percent pair html_path
    extracted w :
  Forall (fun entry => default [] (orth entry) = []) extracted ->
  generate_pages creatable format_percent pair html_path (aggregate extracted) w =
  (Stops ZeroDivisionError,
   mkWorld (files w) (stderr w ++ ["generate " +:+ html_path +:+ newline])).
Proof.
  intros Hall. rewrite aggregate_empty by done.
  unfold generate_pages, sorted_keys. by rewrite map_to_list_empty.
Qed.

Lemma generate_pages_no_headword_witness :
  generate_pages all_creatable (fun _ _ => "0.00") "en-de" "html/en-de"
    (aggregate [orthless]) empty_world =
  (Stops ZeroDivisionError, mkWorld ∅ ["generate html/en-de" +:+ newline]).
Proof.
  apply (generate_pages_no_headword all_creatable (fun _ _ => "0.00") "en-de"
           "html/en-de" [orthless] empty_world).
  by repeat constructor.
Defined.

(** ** From an empty gender element to the page *)

Lemma extracted_entry_gen element k n :
  nodes_at GEN_PATH [] element !! k = Some n -> text (snd n) = None ->
  exists l, gen (extracted_entry element) = Some l /\ None ∈ l.
Proof.
  intros Hk Hn. unfold extracted_entry. cbn [gen entry_extend DictEntry_new].
  assert (Hin : None ∈ texts (nodes_at GEN_PATH [] element)).
  { unfold texts. apply list_elem_of_fmap. exists n. split; [done|].
    by apply list_elem_of_lookup_2 in Hk. }
  destruct (texts (nodes_at GEN_PATH [] element)) as [|g gs];
    [by apply elem_of_nil in Hin|].
  by eexists.
Qed.

Lemma extracted_entry_orth element o :
  Some o ∈ texts_at ORTH_PATH [] element ->
  exists l, orth (extracted_entry element) = Some l /\ o ∈ l.
Proof.
  intros Hin%elem_of_present. unfold extracted_entry.
  cbn [orth entry_extend DictEntry_new].
  change (texts (nodes_at ORTH_PATH [] element))
    with (texts_at ORTH_PATH [] element).
  destruct (present (texts_at ORTH_PATH [] element)) as [|x xs];
    [by apply elem_of_nil in Hin|].
  by eexists.
Qed.

(** X20: an [entry] child of the body that has a spelling and a gender
    element without text is taken into the bucket of that spelling by the
    main loop, and when the file of that headword can be opened, generating
    its page raises [TypeError]: the gender list holds [None], which cannot
    be joined. *)
Theorem empty_gen_stops_page creatable body element o k n html_path w :
  element ∈ children body -> tag element = "entry" ->
  Some o ∈ texts_at ORTH_PATH [] element ->
  nodes_at GEN_PATH [] element !! k = Some n -> text (snd n) = None ->
  creatable (html_path +:+ "/" +:+ o +:+ ".html") = true ->
  exists index b w',
    build_index body = Ok index /\
    index !! o = Some b /\
    extracted_entry element ∈ b /\
    generate_orth creatable o b html_path w = (Raise TypeError, w').
Proof.
  intros Hin Htag Ho Hk Hn Hc.
  destruct (extracted_entry_gen element k n Hk Hn) as (gl & Hgl & Hnone).
  destruct (extracted_entry_orth element o Ho) as (ol & Hol & Hoin).
  assert (Hb : extracted_entry element ∈ bucket o (extracted_entries body)).
  { apply elem_of_bucket. split; [|by exists ol].
    unfold extracted_entries. apply list_elem_of_fmap. exists element.
    split; [done|]. by apply list_elem_of_filter. }
  exists (aggregate (extracted_entries body)), (bucket o (extracted_entries body)).
  assert (Hlookup : aggregate (extracted_entries body) !! o =
                    Some (bucket o (extracted_entries body))).
  { rewrite aggregate_lookup.
    destruct (bucket o (extracted_entries body));
      [by apply elem_of_nil in Hb|done]. }
  destruct (generate_html_raises creatable o (bucket o (extracted_entries body))
              (html_path +:+ "/" +:+ o +:+ ".html") w Hc) as (ws & Hraise & _).
  { by exists (extracted_entry element), gl. }
  eexists. split_and!; [apply build_index_aggregate|done|done|].
  unfold generate_orth. rewrite Hraise. by destruct (String.eqb _ _).
Qed.

Lemma empty_gen_stops_page_witness :
  exists index b w',
    build_index gen_body = Ok index /\
    index !! "cat" = Some b /\
    extracted_entry gen_entry ∈ b /\
    generate_orth all_creatable "cat" b "html" empty_world = (Raise TypeError, w').
Proof.
  apply (empty_gen_stops_page all_creatable gen_body gen_entry "cat" 0
           (["entry"; "gramGrp"], elem 5 "gen" None []) "html" empty_world).
  - by left.
  - reflexivity.
  - by left.
  - reflexivity.
  - reflexivity.
  - reflexivity.
Defined.

(** ** Paths are compared as strings *)

Lemma nodes_at_join p e : forall p1 p2,
  p1 <> [] -> p2 <> [] -> join p1 = join p2 ->
  Forall2 (fun n1 n2 => snd n1 = snd n2 /\ fst n1 <> [] /\ fst n2 <> [] /\
                        join (fst n1) = join (fst n2))
          (nodes_at p p1 e) (nodes_at p p2 e).
Proof.
  induction e as [i t x tl a cs IH] using Element_ind. intros p1 p2 H1 H2 Hj.
  rewrite !nodes_at_unfold. cbn [tag children].
  assert (Hj' : join (p1 ++ [t]) = join (p2 ++ [t]))
    by (by rewrite !join_snoc, Hj by done).
  apply Forall2_app.
  - rewrite Hj'. destruct (String.eqb _ _); by repeat constructor.
  - induction IH as [|c cs Hc _ IHcs]; [constructor|]. simpl.
    apply Forall2_app; [|done].
    apply Hc; [by destruct p1|by destruct p2|done].
Qed.

Lemma texts_at_join p e p1 p2 :
  p1 <> [] -> p2 <> [] -> join p1 = join p2 ->
  texts_at p p1 e = texts_at p p2 e.
Proof.
  intros H1 H2 Hj. unfold texts_at.
  induction (nodes_at_join p e p1 p2 H1 H2 Hj) as [|n1 n2 l1 l2 (Hn & _) _ IH];
    [done|].
  simpl. by rewrite Hn, IH.
Qed.

(** X21: the walk compares the joined path, not the list of tags: under
    two prefixes that are not empty and join to the same string the entry
    extractor gives the same entry.  So an element tagged [form.orth] right
    below the entry counts as a spelling. *)
Theorem collect_joined_prefix element output p1 p2 :
  p1 <> [] -> p2 <> [] -> join p1 = join p2 ->
  exists output',
    collect element output p1 = Ok (output', p1) /\
    collect element output p2 = Ok (output', p2).
Proof.
  intros H1 H2 Hj. eexists. split; [apply collect_any|].
  rewrite collect_any. do 2 f_equal. unfold entry_extend.
  assert (Ht : forall p, texts (nodes_at p p2 element) = texts (nodes_at p p1 element)).
  { intros p. symmetry. apply (texts_at_join p element p1 p2 H1 H2 Hj). }
  rewrite !Ht. f_equal. f_equal.
  induction (nodes_at_join SENSE_PATH element p1 p2 H1 H2 Hj)
    as [|n1 n2 l1 l2 (Hn & Hf1 & Hf2 & Hjn) _ IH]; [done|].
  simpl. rewrite IH. f_equal. unfold sense_of. rewrite Hn.
  by rewrite !(texts_at_join _ (snd n2) (fst n1) (fst n2)).
Qed.

Lemma collect_joined_prefix_witness :
  exists output',
    collect (elem 0 "orth" (Some "cat") []) DictEntry_new ["entry"; "form"] =
      Ok (output', ["entry"; "form"]) /\
    collect (elem 0 "orth" (Some "cat") []) DictEntry_new ["entry.form"] =
      Ok (output', ["entry.form"]).
Proof.
  apply (collect_joined_prefix (elem 0 "orth" (Some "cat") []) DictEntry_new
           ["entry"; "form"] ["entry.form"]); done.
Defined.
